(** * bilibili-comments-mcp: the bounded task pool and the comment tool

    A shallow embedding of [bilibili_mcp.js].

    - [Pool]: [simplePool] together with the part of the JavaScript
      promise machinery it relies on (a promise store, reactions
      registered by [then]/[catch]/[finally], and the microtask queue).
    - [Server]: [validateCookie], [getVideoComments],
      [generateMarkdownResponse] and the formatting helpers, over an
      explicit description of what the remote API answers.

    Numbers are modelled as [Z]: the concurrency limit, the counters of
    the API and the page arguments are counts. *)

From Stdlib Require Import ZArith Ascii String List Lia DecimalString.
From stdpp Require Import prelude strings.

Set Default Proof Using "Type".

(* ================================================================== *)
(** * Data of the remote API and JavaScript values *)
(* ================================================================== *)

(** A nested reply as returned by [/x/v2/reply/reply]. *)
Record reply := Reply {
  reply_uname : string;      (* reply.member.uname *)
  reply_message : string;    (* reply.content.message *)
  reply_like : Z;            (* reply.like *)
  reply_ctime : Z            (* reply.ctime *)
}.

#[export] Instance reply_eq_dec : EqDecision reply.
Proof. solve_decision. Defined.

(** The values that flow through the promises of this program. *)
Inductive value :=
| VUndefined
| VNum (n : Z)
| VStr (s : string)
| VArray (items : list reply).

#[export] Instance value_eq_dec : EqDecision value.
Proof. solve_decision. Defined.

(** How a promise settles. *)
Inductive outcome :=
| Fulfilled (v : value)
| Rejected (reason : value).

#[export] Instance outcome_eq_dec : EqDecision outcome.
Proof. solve_decision. Defined.

(* ================================================================== *)
(** * The pool: [simplePool] *)
(* ================================================================== *)

Module Pool.

(** Promises are cells of a store, named by their index. *)
Abbreviation pid := nat (only parsing).

Section Definitions.

(** [F] is the type of the caller's closures [fn]; the pool never looks
    inside them. *)
Context {F : Type}.

(** The queue entry [{ fn, resolve, reject }].  [resolve] and [reject] are
    the two resolving functions of one promise, the one [schedule]
    returns; the entry records that promise. *)
Record task := Task {
  fn : F;
  promise : pid
}.

(** The three closures created in [runTask]. *)
Inductive handler :=
| OnResult (t : task)     (* res => task.resolve(res) *)
| OnError (t : task)      (* err => task.reject(err) *)
| OnSettled.              (* () => { activeCount--; processQueue(); } *)

Inductive reaction_kind := KThen | KCatch | KFinally.

(** A reaction registered on a promise by [p.then(h)], [p.catch(h)] or
    [p.finally(h)]; [derived] is the promise that call returned. *)
Record reaction := Reaction {
  kind : reaction_kind;
  callback : handler;
  derived : pid
}.

Record cell := Cell {
  result : option outcome;       (* [None]: pending *)
  reactions : list reaction
}.

(** A microtask: a reaction of a promise that settled with the outcome. *)
Definition job : Type := reaction * outcome.

(** The closure environment of [simplePool] ([concurrency], [queue],
    [activeCount]), the promise store and the microtask queue, and three
    logs kept for the statements: the tasks in submission order, the
    calls [task.fn()] in the order made with the promise each returned,
    and the calls of [task.resolve]/[task.reject]. *)
Record state := State {
  concurrency : Z;
  queue : list task;
  activeCount : Z;
  heap : list cell;
  jobs : list job;
  submitted : list task;
  started : list (task * pid);
  resolutions : list (pid * outcome)
}.

Definition set_queue (q : list task) (s : state) : state :=
  State (concurrency s) q (activeCount s) (heap s) (jobs s)
        (submitted s) (started s) (resolutions s).
Definition set_activeCount (n : Z) (s : state) : state :=
  State (concurrency s) (queue s) n (heap s) (jobs s)
        (submitted s) (started s) (resolutions s).
Definition set_heap (h : list cell) (s : state) : state :=
  State (concurrency s) (queue s) (activeCount s) h (jobs s)
        (submitted s) (started s) (resolutions s).
Definition set_jobs (js : list job) (s : state) : state :=
  State (concurrency s) (queue s) (activeCount s) (heap s) js
        (submitted s) (started s) (resolutions s).
Definition set_submitted (l : list task) (s : state) : state :=
  State (concurrency s) (queue s) (activeCount s) (heap s) (jobs s)
        l (started s) (resolutions s).
Definition set_started (l : list (task * pid)) (s : state) : state :=
  State (concurrency s) (queue s) (activeCount s) (heap s) (jobs s)
        (submitted s) l (resolutions s).
Definition set_resolutions (l : list (pid * outcome)) (s : state) : state :=
  State (concurrency s) (queue s) (activeCount s) (heap s) (jobs s)
        (submitted s) (started s) l.

(** ** Promises *)

(** A fresh pending promise. *)
Definition newPromise (s : state) : pid * state :=
  (length (heap s), set_heap (heap s ++ [Cell None []]) s).

(** Settling a pending promise queues one microtask per registered
    reaction; settling a settled promise does nothing. *)
Definition settlePromise (p : pid) (o : outcome) (s : state) : state :=
  match heap s !! p with
  | Some (Cell None rs) =>
      set_jobs (jobs s ++ ((fun r => (r, o)) <$> rs))
        (set_heap (<[p := Cell (Some o) []]> (heap s)) s)
  | _ => s
  end.

(** Registering a reaction: kept on a pending promise, queued at once as
    a microtask on a settled one. *)
Definition addReaction (p : pid) (r : reaction) (s : state) : state :=
  match heap s !! p with
  | Some (Cell None rs) => set_heap (<[p := Cell None (rs ++ [r])]> (heap s)) s
  | Some (Cell (Some o) _) => set_jobs (jobs s ++ [(r, o)]) s
  | None => s
  end.

Definition chain (k : reaction_kind) (p : pid) (h : handler) (s : state)
  : pid * state :=
  let '(d, s) := newPromise s in
  (d, addReaction p (Reaction k h d) s).

Definition promise_then := chain KThen.
Definition promise_catch := chain KCatch.
Definition promise_finally := chain KFinally.

(** [task.resolve(res)] and [task.reject(err)]. *)
Definition resolve (t : task) (res : value) (s : state) : state :=
  settlePromise (promise t) (Fulfilled res)
    (set_resolutions (resolutions s ++ [(promise t, Fulfilled res)]) s).
Definition reject (t : task) (err : value) (s : state) : state :=
  settlePromise (promise t) (Rejected err)
    (set_resolutions (resolutions s ++ [(promise t, Rejected err)]) s).

(** [task.fn()]: the caller's asynchronous operation begins and hands back
    its own promise, which the environment settles later. *)
Definition callFn (t : task) (s : state) : pid * state :=
  let '(p, s) := newPromise s in
  (p, set_started (started s ++ [(t, p)]) s).

(** ** The three functions of [simplePool] *)

Definition runTask (t : task) (s : state) : state :=
  let s := set_activeCount (activeCount s + 1) s in
  let '(p0, s) := callFn t s in
  let '(p1, s) := promise_then p0 (OnResult t) s in
  let '(p2, s) := promise_catch p1 (OnError t) s in
  let '(_, s) := promise_finally p2 OnSettled s in
  s.

Definition processQueue (s : state) : state :=
  if bool_decide (activeCount s < concurrency s)%Z
     && bool_decide (0 < length (queue s))
  then
    match queue s with
    | t :: q => runTask t (set_queue q s)       (* queue.shift() *)
    | [] => s
    end
  else s.

(** The function [simplePool] returns: [fn => new Promise(...)].  The
    executor runs inside the call. *)
Definition schedule (f : F) (s : state) : pid * state :=
  let '(p, s) := newPromise s in
  let t := Task f p in
  let s := set_submitted (submitted s ++ [t]) (set_queue (queue s ++ [t]) s) in
  (p, processQueue s).

Definition simplePool (concurrency : Z) : state :=
  State concurrency [] 0 [] [] [] [] [].

(** ** Microtasks *)

Definition runHandler (h : handler) (arg : value) (s : state) : state :=
  match h with
  | OnResult t => resolve t arg s
  | OnError t => reject t arg s
  | OnSettled => processQueue (set_activeCount (activeCount s - 1) s)
  end.

(** One promise reaction job.  The handlers of the pool return
    [undefined]; [then] skips a rejection, [catch] skips a fulfilment, and
    [finally] passes the outcome on. *)
Definition runJob (j : job) (s : state) : state :=
  let '(r, o) := j in
  match kind r, o with
  | KThen, Fulfilled v =>
      settlePromise (derived r) (Fulfilled VUndefined) (runHandler (callback r) v s)
  | KThen, Rejected e => settlePromise (derived r) (Rejected e) s
  | KCatch, Fulfilled v => settlePromise (derived r) (Fulfilled v) s
  | KCatch, Rejected e =>
      settlePromise (derived r) (Fulfilled VUndefined) (runHandler (callback r) e s)
  | KFinally, _ =>
      settlePromise (derived r) o (runHandler (callback r) VUndefined s)
  end.

(** ** The event loop as a transition system *)

Definition pending (s : state) (p : pid) : bool :=
  match heap s !! p with
  | Some (Cell None _) => true
  | _ => false
  end.

Definition outcome_of (s : state) (p : pid) : option outcome :=
  match heap s !! p with
  | Some c => result c
  | None => None
  end.

(** The calls [task.fn()] whose promise has not settled yet. *)
Definition inflight (s : state) : list (task * pid) :=
  filter (fun x => pending s x.2 = true) (started s).

(** What can happen next: a caller schedules a closure, the operation
    begun by some [task.fn()] completes, or the next microtask runs. *)
Inductive event :=
| EvSchedule (f : F)
| EvSettle (p : pid) (o : outcome)
| EvTick.

Definition step (e : event) (s : state) : option state :=
  match e with
  | EvSchedule f => Some (schedule f s).2
  | EvSettle p o =>
      if bool_decide (p ∈ (inflight s).*2) then Some (settlePromise p o s)
      else None
  | EvTick =>
      match jobs s with
      | j :: js => Some (runJob j (set_jobs js s))
      | [] => None
      end
  end.

Fixpoint run (es : list event) (s : state) : option state :=
  match es with
  | [] => Some s
  | e :: es => s' ← step e s; run es s'
  end.

Inductive reachable (L : Z) : state -> Prop :=
| reachable_init : reachable L (simplePool L)
| reachable_step s e s' :
    reachable L s -> step e s = Some s' -> reachable L s'.

(** ** Running to completion

    [answer] says how the operation begun by a call [task.fn()] ends, and
    [pick] which of the operations in flight ends next.  Microtasks run
    before the next completion is delivered. *)
Definition choose (pick : list (task * pid) -> nat) (x : task * pid)
    (xs : list (task * pid)) : task * pid :=
  nth (pick (x :: xs) mod length (x :: xs)) (x :: xs) x.

Fixpoint drive (answer : task -> outcome) (pick : list (task * pid) -> nat)
    (fuel : nat) (s : state) : state :=
  match fuel with
  | O => s
  | S k =>
      match jobs s with
      | j :: js => drive answer pick k (runJob j (set_jobs js s))
      | [] =>
          match inflight s with
          | [] => s
          | x :: xs =>
              let '(t, p) := choose pick x xs in
              drive answer pick k (settlePromise p (answer t) s)
          end
      end
  end.

(** No promise of the store has settled. *)
Definition all_pending (h : list cell) : Prop :=
  Forall (fun c => result c = None) h.


(** The started tasks whose promise, the one [schedule] returned, is
    still pending. *)
Definition unsettled (s : state) : list (task * pid) :=
  filter (fun x => pending s (promise x.1) = true) (started s).

(** Nothing is left to do: no microtask, no operation in flight. *)
Definition idle (s : state) : bool :=
  match jobs s, inflight s with
  | [], [] => true
  | _, _ => false
  end.

(** ** The advance step as the specification words it

    Follows the specification: while [activeCount < limit] and the queue
    is not empty, dequeue the head, increment [activeCount] and begin
    executing it.  The loop runs at most once per queued task. *)
Fixpoint advance_loop (n : nat) (s : state) : state :=
  match n with
  | O => s
  | S n =>
      if bool_decide (activeCount s < concurrency s)%Z
      then
        match queue s with
        | t :: q => advance_loop n (runTask t (set_queue q s))
        | [] => s
        end
      else s
  end.

Definition advance (s : state) : state := advance_loop (length (queue s)) s.

(** The pool of the specification: [schedule] and the completion handler
    attempt to advance with the loop. *)
Definition spec_schedule (f : F) (s : state) : pid * state :=
  let '(p, s) := newPromise s in
  let t := Task f p in
  let s := set_submitted (submitted s ++ [t]) (set_queue (queue s ++ [t]) s) in
  (p, advance s).

Definition spec_runHandler (h : handler) (arg : value) (s : state) : state :=
  match h with
  | OnResult t => resolve t arg s
  | OnError t => reject t arg s
  | OnSettled => advance (set_activeCount (activeCount s - 1) s)
  end.

Definition spec_runJob (j : job) (s : state) : state :=
  let '(r, o) := j in
  match kind r, o with
  | KThen, Fulfilled v =>
      settlePromise (derived r) (Fulfilled VUndefined)
        (spec_runHandler (callback r) v s)
  | KThen, Rejected e => settlePromise (derived r) (Rejected e) s
  | KCatch, Fulfilled v => settlePromise (derived r) (Fulfilled v) s
  | KCatch, Rejected e =>
      settlePromise (derived r) (Fulfilled VUndefined)
        (spec_runHandler (callback r) e s)
  | KFinally, _ =>
      settlePromise (derived r) o (spec_runHandler (callback r) VUndefined s)
  end.

Definition spec_step (e : event) (s : state) : option state :=
  match e with
  | EvSchedule f => Some (spec_schedule f s).2
  | EvSettle p o =>
      if bool_decide (p ∈ (inflight s).*2) then Some (settlePromise p o s)
      else None
  | EvTick =>
      match jobs s with
      | j :: js => Some (spec_runJob j (set_jobs js s))
      | [] => None
      end
  end.

(** ** Where a started task stands

    After [task.fn()] returned the promise [p0], [runTask] built the chain
    [p0.then(..)] = [p0 + 1], [.catch(..)] = [p0 + 2] and
    [.finally(..)] = [p0 + 3].  A started task is in flight, or its
    outcome waits for the [then], the [catch] or the [finally] reaction,
    or the chain has run to its end. *)
Inductive phase :=
| InFlight
| AwaitThen (o : outcome)
| AwaitCatch (o : outcome)
| AwaitFinally (o : outcome)
| Done (o : outcome).

(** What [then(res => ...)] passes down the chain. *)
Definition after_then (o : outcome) : outcome :=
  match o with
  | Fulfilled _ => Fulfilled VUndefined
  | Rejected e => Rejected e
  end.

Definition then_reaction (t : task) (p0 : pid) : reaction :=
  Reaction KThen (OnResult t) (p0 + 1).
Definition catch_reaction (t : task) (p0 : pid) : reaction :=
  Reaction KCatch (OnError t) (p0 + 2).
Definition finally_reaction (p0 : pid) : reaction :=
  Reaction KFinally OnSettled (p0 + 3).

Definition cell0 (t : task) (p0 : pid) (ph : phase) : cell :=
  match ph with
  | InFlight => Cell None [then_reaction t p0]
  | AwaitThen o | AwaitCatch o | AwaitFinally o | Done o => Cell (Some o) []
  end.
Definition cell1 (t : task) (p0 : pid) (ph : phase) : cell :=
  match ph with
  | InFlight | AwaitThen _ => Cell None [catch_reaction t p0]
  | AwaitCatch o | AwaitFinally o | Done o => Cell (Some (after_then o)) []
  end.
Definition cell2 (p0 : pid) (ph : phase) : cell :=
  match ph with
  | InFlight | AwaitThen _ | AwaitCatch _ => Cell None [finally_reaction p0]
  | AwaitFinally _ | Done _ => Cell (Some (Fulfilled VUndefined)) []
  end.
Definition cell3 (ph : phase) : cell :=
  match ph with
  | Done _ => Cell (Some (Fulfilled VUndefined)) []
  | _ => Cell None []
  end.

(** The outcome of the caller's operation, once it is known. *)
Definition outcome_in (ph : phase) : option outcome :=
  match ph with
  | InFlight => None
  | AwaitThen o | AwaitCatch o | AwaitFinally o | Done o => Some o
  end.

(** The outcome delivered so far to the promise [schedule] returned. *)
Definition delivered (ph : phase) : option outcome :=
  match ph with
  | InFlight | AwaitThen _ => None
  | AwaitCatch (Fulfilled v) => Some (Fulfilled v)
  | AwaitCatch (Rejected _) => None
  | AwaitFinally o | Done o => Some o
  end.

(** The microtask of the chain that is waiting to run. *)
Definition waiting_job (t : task) (p0 : pid) (ph : phase) : list job :=
  match ph with
  | InFlight | Done _ => []
  | AwaitThen o => [(then_reaction t p0, o)]
  | AwaitCatch o => [(catch_reaction t p0, after_then o)]
  | AwaitFinally o => [(finally_reaction p0, Fulfilled VUndefined)]
  end.

Definition owns (p0 : pid) (j : job) : Prop :=
  p0 < derived j.1 /\ derived j.1 <= p0 + 3.
Definition about (p : pid) (r : pid * outcome) : Prop := r.1 = p.

#[export] Instance owns_dec p0 j : Decision (owns p0 j).
Proof. unfold owns. apply _. Defined.
#[export] Instance about_dec p r : Decision (about p r).
Proof. unfold about. apply _. Defined.

(** All that the state holds about one started task. *)
Record view := View {
  v_fn : option cell;
  v_then : option cell;
  v_catch : option cell;
  v_finally : option cell;
  v_promise : option cell;
  v_jobs : list job;
  v_resolutions : list (pid * outcome)
}.

Definition view_of (s : state) (t : task) (p0 : pid) : view :=
  View (heap s !! p0) (heap s !! (p0 + 1)) (heap s !! (p0 + 2))
       (heap s !! (p0 + 3)) (heap s !! promise t)
       (filter (owns p0) (jobs s))
       (filter (about (promise t)) (resolutions s)).

Definition view_at (t : task) (p0 : pid) (ph : phase) : view :=
  View (Some (cell0 t p0 ph)) (Some (cell1 t p0 ph)) (Some (cell2 p0 ph))
       (Some (cell3 ph)) (Some (Cell (delivered ph) []))
       (waiting_job t p0 ph)
       (match delivered ph with Some o => [(promise t, o)] | None => [] end).

(** A started task occupies a slot until its [finally] reaction ran. *)
Definition occupies (ph : phase) : nat :=
  match ph with
  | Done _ => 0
  | _ => 1
  end.

(** The promises of the pool: one per submitted task, four per call. *)
Definition chain_cells (x : task * pid) : list pid :=
  [x.2; x.2 + 1; x.2 + 2; x.2 + 3].
Definition cells (s : state) : list pid :=
  (promise <$> submitted s) ++ (started s ≫= chain_cells).

Definition footprint (t : task) (p0 : pid) : list pid :=
  promise t :: chain_cells (t, p0).

(** What holds of the pool with limit [L] whenever control is inside or
    outside its functions; [phs] gives the phase of each started task. *)
Record consistent (L : Z) (s : state) (phs : list phase) : Prop := {
  inv_limit : concurrency s = L;
  inv_fifo : submitted s = (started s).*1 ++ queue s;
  inv_nodup : NoDup (cells s);
  inv_bound : Forall (fun p => p < length (heap s)) (cells s);
  inv_len : length phs = length (started s);
  inv_chain : forall i t p0 ph,
      started s !! i = Some (t, p0) -> phs !! i = Some ph ->
      view_of s t p0 = view_at t p0 ph;
  inv_jobs : forall j, j ∈ jobs s ->
      exists t p0, (t, p0) ∈ started s /\ owns p0 j;
  inv_res : Forall (fun r => r.1 < length (heap s)) (resolutions s);
  inv_queue : forall t, t ∈ queue s ->
      heap s !! promise t = Some (Cell None []) /\
      filter (about (promise t)) (resolutions s) = [];
  inv_active : activeCount s = Z.of_nat (sum_list_with occupies phs);
  inv_cap : (activeCount s <= Z.max L 0)%Z
}.

(** The invariant between two events: moreover, a task waits in the queue
    only while every slot is taken. *)
Definition invariant (L : Z) (s : state) (phs : list phase) : Prop :=
  consistent L s phs /\ (queue s <> [] -> (L <= activeCount s)%Z).

(** The microtasks and completions still needed before every task of the
    state has run to its end. *)
Definition remaining (ph : phase) : nat :=
  match ph with
  | InFlight => 4
  | AwaitThen _ => 3
  | AwaitCatch _ => 2
  | AwaitFinally _ => 1
  | Done _ => 0
  end.
Definition work (s : state) (phs : list phase) : nat :=
  sum_list_with remaining phs + 4 * length (queue s).

End Definitions.

Arguments task : clear implicits.
Arguments handler : clear implicits.
Arguments reaction : clear implicits.
Arguments cell : clear implicits.
Arguments job : clear implicits.
Arguments state : clear implicits.
Arguments event : clear implicits.
Arguments view : clear implicits.

End Pool.

(* ================================================================== *)
(** * The tool: [BilibiliAPI] and [BilibiliMCPServer] *)
(* ================================================================== *)

Module Server.

Import Pool.

(** ** JavaScript operators on the values of this program *)

Definition nonempty (s : string) : bool :=
  match s with
  | EmptyString => false
  | String _ _ => true
  end.

Definition truthy (v : value) : bool :=
  match v with
  | VUndefined => false
  | VNum n => negb (n =? 0)%Z
  | VStr s => nonempty s
  | VArray _ => true
  end.

(** [a || b]. *)
Definition js_or (a b : value) : value := if truthy a then a else b.

(** [x || d] for a number that may be absent, and for a string. *)
Definition num_or (x : option Z) (d : Z) : Z :=
  match x with
  | Some n => if (n =? 0)%Z then d else n
  | None => d
  end.
Definition str_or (s d : string) : string := if nonempty s then s else d.

Definition opt_truthy (s : option string) : bool :=
  match s with
  | Some s => nonempty s
  | None => false
  end.

(** [hay.includes(needle)]. *)
Fixpoint includes (needle hay : string) : bool :=
  String.prefix needle hay ||
  match hay with
  | EmptyString => false
  | String _ rest => includes needle rest
  end.

(** A number inside a template literal. *)
Definition show_Z (n : Z) : string :=
  DecimalString.NilZero.string_of_int (Z.to_int n).

Definition nl : string := String (Ascii.ascii_of_nat 10) EmptyString.

(** [message.replace(/\n/g, '\n> ')]. *)
Fixpoint quote_lines (s : string) : string :=
  match s with
  | EmptyString => EmptyString
  | String c rest =>
      if Ascii.eqb c (Ascii.ascii_of_nat 10)
      then nl +:+ "> " +:+ quote_lines rest
      else String c (quote_lines rest)
  end.

(** [Math.ceil(a / b)] for [b > 0]. *)
Definition ceil_div (a b : Z) : Z := (- ((- a) / b))%Z.

(** ** What is thrown, and how a call ends *)

(** An [Error] object with its [code] (set by axios) and [message], or
    the reason of a rejected promise that is not an [Error]. *)
Inductive exn :=
| JsError (code : option string) (message : string)
| Reason (v : value).

(** How a call, or the promise of an [async] function, ends. *)
Inductive completion (A : Type) :=
| Returns (a : A)
| Throws (e : exn)
| Never.
Arguments Returns {A} a.
Arguments Throws {A} e.
Arguments Never {A}.

(** [error.message]: the message of an [Error]; [undefined] on a string, a
    number or an array; reading it from [undefined] throws. *)
Definition message_of (e : exn) : completion string :=
  match e with
  | JsError _ m => Returns m
  | Reason VUndefined =>
      Throws (JsError None "Cannot read properties of undefined (reading 'message')")
  | Reason _ => Returns "undefined"
  end.

Definition code_of (e : exn) : option string :=
  match e with
  | JsError c _ => c
  | Reason _ => None
  end.

(** ** The remote API *)

Record comment := Comment {
  rpid : Z;
  rcount : Z;
  comment_ctime : Z;
  comment_like : Z;
  comment_uname : string;             (* comment.member.uname *)
  comment_level : option Z;           (* comment.member.level_info?.current_level *)
  comment_message : string            (* comment.content.message *)
}.

Record page_info := Page { num : Z; count : Z; size : Z }.

(** [response.data.data] of the comment endpoint. *)
Record pageInfo := PageInfo {
  page : option page_info;
  hots : option (list comment);
  replies : option (list comment)
}.

(** The configuration of one [axiosInstance.get(url, { params, headers,
    timeout })]. *)
Record request := Request {
  url : string;
  params : list (string * value);
  headers : list (string * value);
  timeout : option Z
}.

(** What axios hands back: a response, or an error with [code] and
    [message]. *)
Inductive http (A : Type) :=
| Response (data : A)
| Failure (code : option string) (message : string).
Arguments Response {A} data.
Arguments Failure {A} code message.

Record view_response := ViewResponse {
  view_code : Z; view_message : string; view_aid : Z; view_title : string }.
Record reply_response := ReplyResponse {
  reply_code : Z; reply_message_text : string; reply_data : pageInfo }.
Record replies_response := RepliesResponse {
  replies_code : Z; replies_data : option (list reply) }.

(** The closure handed to the pool:
    [() => this.bilibiliAPI.fetchReplies(oid, comment.rpid, cookie, videoId)]. *)
Inductive closure :=
| FetchReplies (oid : value) (parentRpid : Z) (cookie : value) (videoId : string).

(** Everything outside the program: the environment variable, the three
    endpoints, the order in which the answers to concurrent requests
    arrive, and the two locale-dependent date formats. *)
Record world := World {
  BILIBILI_COOKIE : value;
  view_endpoint : request -> http view_response;
  reply_endpoint : request -> http reply_response;
  replyReply_endpoint : request -> http replies_response;
  arrival : list (task closure * nat) -> nat;
  toLocaleString : Z -> string;
  toLocaleStringShort : Z -> string
}.

(** ** Computations that send requests *)

(** A computation of the tool: the requests it sent, in order, and how it
    ended. *)
Definition io (A : Type) : Type := list request * completion A.

Definition ret {A} (a : A) : io A := ([], Returns a).
Definition throw {A} (e : exn) : io A := ([], Throws e).
Definition lift {A} (c : completion A) : io A := ([], c).

Definition bind {A B} (c : io A) (k : A -> io B) : io B :=
  match c.2 with
  | Returns a => (c.1 ++ (k a).1, (k a).2)
  | Throws e => (c.1, Throws e)
  | Never => (c.1, Never)
  end.

Notation "'let!' x ':=' c 'in' k" := (bind c (fun x => k))
  (at level 10, x pattern, c at level 100, k at level 200).

(** [try { body } catch (error) { handler }]. *)
Definition try_catch {A} (body : io A) (handler : exn -> io A) : io A :=
  match body.2 with
  | Throws e => (body.1 ++ (handler e).1, (handler e).2)
  | _ => body
  end.

(** [await this.axiosInstance.get(...)]. *)
Definition axios_get {A} (endpoint : request -> http A) (r : request) : io A :=
  ([r],
   match endpoint r with
   | Response d => Returns d
   | Failure c m => Throws (JsError c m)
   end).

Definition apiEndpoints_view : string :=
  "https://api.bilibili.com/x/web-interface/view".
Definition apiEndpoints_reply : string :=
  "https://api.bilibili.com/x/v2/reply".
Definition apiEndpoints_replyReply : string :=
  "https://api.bilibili.com/x/v2/reply/reply".

Definition referer (videoId : string) : value :=
  VStr ("https://www.bilibili.com/video/" +:+ videoId).

(** ** class BilibiliAPI *)

Definition getVideoInfo_request (bvid : string) (cookie : value) : request :=
  Request apiEndpoints_view [("bvid", VStr bvid)]
          [("Cookie", cookie); ("Referer", referer bvid)] None.

Definition getVideoInfo (w : world) (bvid : string) (cookie : value)
  : io (Z * string) :=
  try_catch
    (let! response := axios_get (view_endpoint w)
                        (getVideoInfo_request bvid cookie) in
     if negb (view_code response =? 0)%Z
     then throw (JsError None
            ("获取视频信息失败 (" +:+ show_Z (view_code response) +:+ "): "
             +:+ view_message response))
     else ret (view_aid response, view_title response))
    (fun error =>
       let! m := lift (message_of error) in
       throw (JsError None ("获取视频信息失败: " +:+ str_or m "未知网络错误"))).

Definition fetchComments_request (oid : value) (page pageSize sort : Z)
    (cookie : value) (videoId : string) : request :=
  Request apiEndpoints_reply
          [("type", VNum 1); ("oid", oid); ("pn", VNum page);
           ("ps", VNum (Z.min pageSize 49)); ("sort", VNum sort)]
          [("Cookie", cookie); ("Referer", referer videoId)] None.

Definition fetchComments (w : world) (oid : value) (page pageSize sort : Z)
    (cookie : value) (videoId : string) : io reply_response :=
  try_catch
    (axios_get (reply_endpoint w)
       (fetchComments_request oid page pageSize sort cookie videoId))
    (fun error =>
       if bool_decide (code_of error = Some "ECONNABORTED")
       then throw (JsError None "请求超时，请稍后重试")
       else
         let! m := lift (message_of error) in
         throw (JsError None ("获取主评论失败: " +:+ str_or m "未知网络错误"))).

Definition fetchReplies_request (oid : value) (parentRpid : Z)
    (cookie : value) (videoId : string) : request :=
  Request apiEndpoints_replyReply
          [("type", VNum 1); ("oid", oid); ("root", VNum parentRpid);
           ("ps", VNum 10)]
          [("Cookie", cookie); ("Referer", referer videoId)] (Some 8000%Z).

(** The value the promise of [fetchReplies] is fulfilled with; whatever
    goes wrong is caught, so it is never rejected. *)
Definition fetchReplies (w : world) (oid : value) (parentRpid : Z)
    (cookie : value) (videoId : string) : value :=
  match replyReply_endpoint w
          (fetchReplies_request oid parentRpid cookie videoId) with
  | Response d =>
      match replies_data d with
      | Some rs => if (replies_code d =? 0)%Z then VArray rs else VArray []
      | None => VArray []
      end
  | Failure _ _ => VStr "fetch_failed"
  end.

(** Calling a closure of the pool: the request it sends at once and the
    outcome of its promise. *)
Definition request_of (f : closure) : request :=
  match f with
  | FetchReplies oid parentRpid cookie videoId =>
      fetchReplies_request oid parentRpid cookie videoId
  end.

Definition call (w : world) (f : closure) : outcome :=
  match f with
  | FetchReplies oid parentRpid cookie videoId =>
      Fulfilled (fetchReplies w oid parentRpid cookie videoId)
  end.

(** ** class BilibiliMCPServer *)

Definition validateCookie (cookie : value) : bool :=
  truthy cookie &&
  match cookie with
  | VStr s => includes "SESSDATA" s
  | _ => false                         (* typeof cookie !== 'string' *)
  end.

Definition _formatSingleCommentContent (w : world) (c : comment) : string :=
  let timeStr := toLocaleString w (comment_ctime c * 1000) in
  let userLevel := num_or (comment_level c) 0 in
  ("**👤 " +:+ comment_uname c +:+ "** (Lv." +:+ show_Z userLevel
   +:+ ") | 👍 " +:+ show_Z (comment_like c) +:+ " | 🕐 " +:+ timeStr +:+ nl)
  +:+ ("> " +:+ quote_lines (comment_message c) +:+ nl).

Definition format_reply (w : world) (r : reply) : string :=
  let replyTime := toLocaleStringShort w (reply_ctime r * 1000) in
  "  ↳ **" +:+ reply_uname r +:+ "**: " +:+ reply_message r +:+ " *(👍"
  +:+ show_Z (reply_like r) +:+ " | " +:+ replyTime +:+ ")*" +:+ nl.

Definition concat_strings (l : list string) : string :=
  foldr String.append EmptyString l.

Definition formatCommentWithReplies (w : world) (c : comment) (rs : value)
  : completion string :=
  let md := _formatSingleCommentContent w c in
  let tail := nl +:+ "---" +:+ nl +:+ nl in
  match rs with
  | VStr s =>
      if bool_decide (s = "fetch_failed") then
        Returns (md +:+ "  ↳ ⚠️ *此评论的楼中楼回复加载失败，请稍后重试。*" +:+ nl
                 +:+ tail)
      else if nonempty s then
        Throws (JsError None "replies.forEach is not a function")
      else Returns (md +:+ tail)
  | VArray [] => Returns (md +:+ tail)
  | VArray items =>
      let n := Z.of_nat (length items) in
      Returns
        (md
         +:+ (nl +:+ "**📝 楼中楼回复** (共 " +:+ show_Z (rcount c)
              +:+ " 条，显示前 " +:+ show_Z n +:+ " 条):" +:+ nl)
         +:+ concat_strings (format_reply w <$> items)
         +:+ (if (rcount c >? n)%Z
              then "  ↳ *...还有 " +:+ show_Z (rcount c - n) +:+ " 条回复*" +:+ nl
              else EmptyString)
         +:+ tail)
  | VNum _ => Returns (md +:+ tail)
  | VUndefined =>
      Throws (JsError None "Cannot read properties of undefined (reading 'length')")
  end.

(** [items.forEach(item => { md += f(item) })]. *)
Fixpoint append_each {A} (f : A -> completion string) (l : list A) (md : string)
  : completion string :=
  match l with
  | [] => Returns md
  | x :: l =>
      match f x with
      | Returns piece => append_each f l (md +:+ piece)
      | Throws e => Throws e
      | Never => Never
      end
  end.

(** A promise the orchestration waits for: [Promise.resolve(v)], or a
    promise returned by the pool. *)
Inductive awaited :=
| Ready (v : value)
| OfPool (p : nat).

(** [allComments.map(comment => ...)] with the pool threaded through. *)
Fixpoint reply_promises (oid cookie : value) (videoId : string)
    (cs : list comment) (s : state closure)
  : list awaited * state closure :=
  match cs with
  | [] => ([], s)
  | c :: cs =>
      let '(a, s) :=
        if (rcount c >? 0)%Z
        then let '(p, s) := schedule (FetchReplies oid (rpid c) cookie videoId) s
             in (OfPool p, s)
        else (Ready (VArray []), s) in
      let '(rest, s) := reply_promises oid cookie videoId cs s in
      (a :: rest, s)
  end.

Definition replyTasks (includeReplies : bool) (oid cookie : value)
    (videoId : string) (allComments : list comment) (s : state closure)
  : list awaited * state closure :=
  if includeReplies
  then reply_promises oid cookie videoId allComments s
  else ((fun _ => Ready (VArray [])) <$> allComments, s).

Definition state_of (s : state closure) (a : awaited) : option outcome :=
  match a with
  | Ready v => Some (Fulfilled v)
  | OfPool p => outcome_of s p
  end.

(** [Promise.all(ps)] in a state of the store: rejected once one of [ps]
    is, fulfilled with all the values once all are fulfilled, pending
    otherwise. *)
Fixpoint Promise_all (s : state closure) (ps : list awaited)
  : option (list value + value) :=
  match ps with
  | [] => Some (inl [])
  | a :: ps =>
      match state_of s a, Promise_all s ps with
      | Some (Rejected r), _ => Some (inr r)
      | _, Some (inr r) => Some (inr r)
      | Some (Fulfilled v), Some (inl vs) => Some (inl (v :: vs))
      | _, _ => None
      end
  end.

(** [allComments.map((comment, index) =>
      ({ comment, replies: allReplies[index] || [] }))]. *)
Definition commentWithReplies (allComments : list comment)
    (allReplies : list value) : list (comment * value) :=
  imap (fun index c =>
          (c, js_or (default VUndefined (allReplies !! index)) (VArray [])))
       allComments.

Definition header (currentPage totalPages totalCount : Z) : string :=
  ("## 📺 B 站评论分析结果" +:+ nl +:+ nl)
  +:+ ("📄 **当前显示**: 第 " +:+ show_Z currentPage +:+ " / "
       +:+ show_Z totalPages +:+ " 页" +:+ nl)
  +:+ ("📊 **评论总数**: " +:+ show_Z totalCount +:+ " 条" +:+ nl +:+ nl).

Definition footer (currentPage totalPages : Z) : string :=
  ("---" +:+ nl +:+ nl)
  +:+ ("✅ **成功加载第 " +:+ show_Z currentPage +:+ " 页的评论。**" +:+ nl)
  +:+ (if (currentPage <? totalPages)%Z
       then "💡 如需浏览下一页 (第 " +:+ show_Z (currentPage + 1)
            +:+ " 页), 请在下次请求时指定 `page: "
            +:+ show_Z (currentPage + 1) +:+ "`。"
       else "🏁 已到达最后一页。").

(** The part of [generateMarkdownResponse] after [await Promise.all]. *)
Definition render (w : world) (md : string) (currentPage totalPages : Z)
    (allComments : list comment) (allReplies : list value) : completion string :=
  match append_each (fun item => formatCommentWithReplies w item.1 item.2)
          (commentWithReplies allComments allReplies)
          (md +:+ "### 💬 评论列表" +:+ nl) with
  | Returns md => Returns (md +:+ footer currentPage totalPages)
  | c => c
  end.

(** The pool and the promises when [generateMarkdownResponse] reaches
    [await Promise.all(replyTasks)]. *)
Definition submitted_batch (includeReplies : bool) (oid cookie : value)
    (videoId : string) (allComments : list comment)
  : list awaited * state closure :=
  let limit := simplePool 5 in
  replyTasks includeReplies oid cookie videoId allComments limit.

(** While the function is suspended the event loop runs: the requests in
    flight are answered in the order the world decides, each call ending
    as [fetchReplies] ends; [n] bounds the number of tasks. *)
Definition event_loop (w : world) (n : nat) (s : state closure) : state closure :=
  drive (fun t => call w (fn t)) (arrival w) (4 * n) s.

Definition generateMarkdownResponse (w : world) (pageInfo : pageInfo)
    (includeReplies : bool) (cookie : value) (videoId : string) (oid : value)
  : io string :=
  let currentPage := num_or (num <$> page pageInfo) 1 in
  let totalCount := num_or (count <$> page pageInfo) 0 in
  let pageSize := num_or (size <$> page pageInfo) 20 in
  let totalPages :=
    if (pageSize >? 0)%Z then ceil_div totalCount pageSize else 1%Z in
  let md := header currentPage totalPages totalCount in
  let allComments :=
    default [] (hots pageInfo) ++ default [] (replies pageInfo) in
  match allComments with
  | [] =>
      ret (md +:+ "😴 **此页面没有评论。**" +:+ nl +:+ nl
           +:+ "✅ 分析完成。如果视频有更多评论，请尝试请求其他页面。")
  | _ =>
      let '(tasks, s) :=
        submitted_batch includeReplies oid cookie videoId allComments in
      let s := event_loop w (length allComments) s in
      ((fun x => request_of (fn x.1)) <$> started s,
       match Promise_all s tasks with
       | None => Never
       | Some (inr reason) => Throws (Reason reason)
       | Some (inl allReplies) =>
           render w md currentPage totalPages allComments allReplies
       end)
  end.

(** The arguments of the tool, as its input schema types them; [None] is
    an absent property. *)
Record arguments := Args {
  arg_bvid : option string;
  arg_aid : option string;
  arg_page : option Z;
  arg_pageSize : option Z;
  arg_sort : option Z;
  arg_includeReplies : option bool;
  arg_cookie : value
}.

Record content_item := ContentItem { type : string; text : string }.
Record tool_result := ToolResult { content : list content_item }.

Definition api_error_message (code : Z) (message : string) : string :=
  if (code =? -101)%Z then "账号未登录或 Cookie 已过期"
  else if (code =? -403)%Z then "访问权限不足"
  else if (code =? -404)%Z then "视频不存在或已被删除"
  else message.

(** [args.cookie || process.env.BILIBILI_COOKIE]. *)
Definition cookie_of (w : world) (args : arguments) : value :=
  js_or (arg_cookie args) (BILIBILI_COOKIE w).

(** The [try] block of [getVideoComments]. *)
Definition getVideoComments_try (w : world) (args : arguments)
  : io tool_result :=
  let bvid := arg_bvid args in
  let aid := arg_aid args in
  let page := default 1%Z (arg_page args) in
  let pageSize := default 20%Z (arg_pageSize args) in
  let sort := default 0%Z (arg_sort args) in
  let includeReplies := default true (arg_includeReplies args) in
  let cookie := cookie_of w args in
  if negb (validateCookie cookie) then
    throw (JsError None
      "必须提供有效的 B 站 Cookie。请通过参数传入或设置 BILIBILI_COOKIE 环境变量。")
  else if negb (opt_truthy bvid) && negb (opt_truthy aid) then
    throw (JsError None "必须提供 bvid 或 aid 之一")
  else if (pageSize <? 1)%Z || (pageSize >? 49)%Z then
    throw (JsError None "pageSize 必须在 1-49 之间")
  else if negb (bool_decide (sort ∈ [0; 1]%Z)) then
    throw (JsError None "sort 必须是 0 或 1")
  else
    let videoIdForRef :=
      if opt_truthy bvid then default EmptyString bvid
      else "av" +:+ default EmptyString aid in
    let! oid :=
      (if opt_truthy bvid && negb (opt_truthy aid)
       then let! videoInfo := getVideoInfo w (default EmptyString bvid) cookie in
            ret (VNum videoInfo.1)
       else ret (from_option VStr VUndefined aid)) in
    let! response :=
      fetchComments w oid page pageSize sort cookie videoIdForRef in
    if negb (reply_code response =? 0)%Z then
      throw (JsError None
        ("B 站 API 错误 (" +:+ show_Z (reply_code response) +:+ "): "
         +:+ api_error_message (reply_code response)
               (reply_message_text response)))
    else
      let! markdownResponse :=
        generateMarkdownResponse w (reply_data response) includeReplies
          cookie videoIdForRef oid in
      ret (ToolResult [ContentItem "text" markdownResponse]).

Definition failure_prefix : string := "❌ 获取评论失败: ".

Definition getVideoComments (w : world) (args : arguments) : io tool_result :=
  try_catch (getVideoComments_try w args)
    (fun error =>
       let! m := lift (message_of error) in
       ret (ToolResult [ContentItem "text" (failure_prefix +:+ m)])).

(** ** What the statements about the tool refer to *)

(** The closures of the tasks for a page: one per comment with nested
    replies, in the order of the comments. *)
Definition reply_closures (oid cookie : value) (videoId : string)
    (cs : list comment) : list closure :=
  (fun c => FetchReplies oid (rpid c) cookie videoId)
    <$> filter (fun c => (0 < rcount c)%Z) cs.

(** The reply result of a comment: what [fetchReplies] makes of the
    answer for this comment if a task was submitted for it, or an empty
    array. *)
Definition own_replies (w : world) (includeReplies : bool) (oid cookie : value)
    (videoId : string) (c : comment) : value :=
  if includeReplies && (rcount c >? 0)%Z
  then fetchReplies w oid (rpid c) cookie videoId
  else VArray [].

(** The promise of a comment is the promise of its own task, or a ready
    empty array. *)
Definition promise_for (oid cookie : value) (videoId : string)
    (s : state closure) (c : comment) (a : awaited) : Prop :=
  if (rcount c >? 0)%Z
  then exists t, a = OfPool (promise t) /\ t ∈ submitted s /\
                 fn t = FetchReplies oid (rpid c) cookie videoId
  else a = Ready (VArray []).

Definition allComments_of (pageInfo : pageInfo) : list comment :=
  default [] (hots pageInfo) ++ default [] (replies pageInfo).


(** The three numbers of the report header, as
    [generateMarkdownResponse] computes them. *)
Definition currentPage_of (pageInfo : pageInfo) : Z :=
  num_or (num <$> page pageInfo) 1.
Definition totalCount_of (pageInfo : pageInfo) : Z :=
  num_or (count <$> page pageInfo) 0.
Definition pageSize_of (pageInfo : pageInfo) : Z :=
  num_or (size <$> page pageInfo) 20.
Definition totalPages_of (pageInfo : pageInfo) : Z :=
  if (pageSize_of pageInfo >? 0)%Z
  then ceil_div (totalCount_of pageInfo) (pageSize_of pageInfo) else 1%Z.
Definition header_of (pageInfo : pageInfo) : string :=
  header (currentPage_of pageInfo) (totalPages_of pageInfo)
         (totalCount_of pageInfo).

(** The text [formatCommentWithReplies] returns. *)
Definition block_of (w : world) (c : comment) (rs : value) : string :=
  match formatCommentWithReplies w c rs with
  | Returns md => md
  | _ => EmptyString
  end.

(** The four checks at the start of [getVideoComments] pass. *)
Definition valid_arguments (w : world) (args : arguments) : bool :=
  validateCookie (cookie_of w args)
  && (opt_truthy (arg_bvid args) || opt_truthy (arg_aid args))
  && ((1 <=? default 20 (arg_pageSize args))%Z
      && (default 20 (arg_pageSize args) <=? 49)%Z)
  && bool_decide (default 0%Z (arg_sort args) ∈ [0; 1]%Z).

(** The video is looked up by its BV number: [bvid && !aid]. *)
Definition needs_lookup (args : arguments) : bool :=
  opt_truthy (arg_bvid args) && negb (opt_truthy (arg_aid args)).

(** [bvid || `av${aid}`]. *)
Definition videoIdForRef_of (args : arguments) : string :=
  if opt_truthy (arg_bvid args) then default EmptyString (arg_bvid args)
  else "av" +:+ default EmptyString (arg_aid args).

(** The message of the first check that fails. *)
Definition validation_message (w : world) (args : arguments) : string :=
  if negb (validateCookie (cookie_of w args)) then
    "必须提供有效的 B 站 Cookie。请通过参数传入或设置 BILIBILI_COOKIE 环境变量。"
  else if negb (opt_truthy (arg_bvid args)) && negb (opt_truthy (arg_aid args))
  then "必须提供 bvid 或 aid 之一"
  else if (default 20 (arg_pageSize args) <? 1)%Z
          || (default 20 (arg_pageSize args) >? 49)%Z
  then "pageSize 必须在 1-49 之间"
  else "sort 必须是 0 或 1".

(** The [oid] of the comment request: the [aid] given, or the one the
    video lookup returns. *)
Definition oid_of (w : world) (args : arguments) : io value :=
  if needs_lookup args
  then let! videoInfo :=
         getVideoInfo w (default EmptyString (arg_bvid args)) (cookie_of w args) in
       ret (VNum videoInfo.1)
  else ret (from_option VStr VUndefined (arg_aid args)).

(** A computation ends by returning a value with property [P] or by
    throwing an [Error]. *)
Definition ends_well {A} (P : A -> Prop) (c : io A) : Prop :=
  (exists a, c.2 = Returns a /\ P a) \/ (exists code m, c.2 = Throws (JsError code m)).

(** The handler of [CallToolRequestSchema]:
    [request.params.name === "get_video_comments"] dispatches to
    [getVideoComments], any other name throws. *)
Definition callTool (w : world) (name : string) (args : arguments)
  : io tool_result :=
  if bool_decide (name = "get_video_comments")
  then getVideoComments w args
  else throw (JsError None ("未知的工具: " +:+ name)).

(** The same world with another order of arrival of the answers. *)
Definition with_arrival (w : world)
    (pick : list (task closure * nat) -> nat) : world :=
  World (BILIBILI_COOKIE w) (view_endpoint w) (reply_endpoint w)
        (replyReply_endpoint w) pick (toLocaleString w) (toLocaleStringShort w).

Definition cookie_message : string :=
  "必须提供有效的 B 站 Cookie。请通过参数传入或设置 BILIBILI_COOKIE 环境变量。".

Definition failure_result (m : string) : tool_result :=
  ToolResult [ContentItem "text" (failure_prefix +:+ m)].

End Server.

(* ================================================================== *)
(** * Sample runs *)
(* ================================================================== *)

Module Samples.

Import Pool Server.

(** A pool with limit 2, three tasks, the first of which has finished
    and the second of which has failed. *)
Definition trace : list (event nat) :=
  [EvSchedule 10; EvSchedule 11; EvSchedule 12;
   EvSettle 1 (Fulfilled (VNum 7)); EvTick; EvTick; EvTick;
   EvSettle 6 (Rejected (VStr "network error")); EvTick; EvTick; EvTick].

Definition three_submitted : list (event nat) :=
  [EvSchedule 10; EvSchedule 11; EvSchedule 12].

Definition after (L : Z) (es : list (event nat)) : state nat :=
  default (simplePool L) (run es (simplePool L)).



(** A page of three comments; the replies of the third cannot be
    fetched. *)
Definition alice : comment :=
  Comment 101 2 1700000000 5 "alice" (Some 4%Z) "hello".
Definition bob : comment :=
  Comment 102 0 1700000001 1 "bob" None "first".
Definition carol : comment :=
  Comment 103 1 1700000002 1 "carol" None "x".

Definition sample_page : pageInfo :=
  PageInfo (Some (Page 1 45 20)) None (Some [alice; bob; carol]).

Definition sample_world : world :=
  World (VStr "SESSDATA=abc")
    (fun _ => Response (ViewResponse 0 "0" 777 "title"))
    (fun _ => Response (ReplyResponse 0 "0" sample_page))
    (fun r =>
       if bool_decide (("root", VNum 103) ∈ params r)
       then Failure (Some "ECONNABORTED") "timeout of 8000ms exceeded"
       else Response (RepliesResponse 0 (Some [Reply "dave" "re" 3 1700000003])))
    (fun _ => 1) (fun _ => "T") (fun _ => "t").

Definition sample_args (cookie : value) : arguments :=
  Args (Some "BV1xx411c7mD") None None None None None cookie.

(** A world whose endpoints answer as given. *)
Definition world_of (v : http view_response) (r : http reply_response)
    (rr : http replies_response) : world :=
  World (VStr "SESSDATA=abc") (fun _ => v) (fun _ => r) (fun _ => rr)
        (fun _ => 0) (fun _ => "T") (fun _ => "t").

Definition good_view : http view_response :=
  Response (ViewResponse 0 "0" 777 "title").
Definition good_page : http reply_response :=
  Response (ReplyResponse 0 "0" sample_page).
Definition good_replies : http replies_response :=
  Response (RepliesResponse 0 (Some [Reply "dave" "re" 3 1700000003])).

(** Arguments that name the video by its AV number. *)
Definition av_args (includeReplies : bool) : arguments :=
  Args (Some "BV1xx411c7mD") (Some "170001") (Some 2%Z) (Some 30%Z)
       (Some 1%Z) (Some includeReplies) VUndefined.

End Samples.

(* ================================================================== *)
(** * Facts about the pool *)
(* ================================================================== *)

Import Pool.

Section PoolFacts.

Context {F : Type}.
Implicit Types (s : state F) (t : task F) (p : pid) (o : outcome).
Implicit Types (j : job F) (js : list (job F)) (ph : phase) (phs : list phase).

Lemma lookup_snoc_here {A} (h : list A) (c : A) (l : list A) :
  (h ++ c :: l) !! length h = Some c.
Proof. induction h; simpl; auto. Qed.

Lemma insert_snoc_here {A} (h : list A) (c x : A) (l : list A) :
  <[length h := x]> (h ++ c :: l) = h ++ x :: l.
Proof. induction h; simpl; [done | by f_equal]. Qed.

Lemma chain_on_last k hd s h0 p :
  heap s = h0 ++ [Cell None []] -> p = length h0 ->
  chain k p hd s =
  (p + 1, set_heap (h0 ++ [Cell None [Reaction k hd (p + 1)]; Cell None []]) s).
Proof.
  intros Hh ->. unfold chain, newPromise, addReaction. simpl.
  rewrite Hh. rewrite length_app. simpl.
  rewrite <- app_assoc. simpl. rewrite lookup_snoc_here.
  rewrite insert_snoc_here. destruct s; reflexivity.
Qed.

Lemma runTask_eq t s :
  runTask t s =
  State (concurrency s) (queue s) (activeCount s + 1)
        (heap s ++ [cell0 t (length (heap s)) InFlight;
                    cell1 t (length (heap s)) InFlight;
                    cell2 (F:=F) (length (heap s)) InFlight;
                    cell3 InFlight])
        (jobs s) (submitted s) (started s ++ [(t, length (heap s))])
        (resolutions s).
Proof.
  destruct s as [L q ac h js sub st rs].
  unfold runTask, callFn, newPromise, promise_then, promise_catch,
    promise_finally.
  cbn -[chain].
  rewrite (chain_on_last KThen (OnResult t) _ h (length h)); [| done | done].
  cbn -[chain].
  rewrite (chain_on_last KCatch (OnError t) _
             (h ++ [Cell None [Reaction KThen (OnResult t) (length h + 1)]])
             (length h + 1)); [| by rewrite <- app_assoc | by rewrite length_app].
  cbn -[chain].
  rewrite (chain_on_last KFinally OnSettled _
             (h ++ [Cell None [Reaction KThen (OnResult t) (length h + 1)];
                    Cell None [Reaction KCatch (OnError t) (length h + 1 + 1)]])
             (length h + 1 + 1));
    [| by rewrite <- !app_assoc | rewrite length_app; simpl; lia].
  unfold set_heap, set_started, set_activeCount. simpl.
  unfold then_reaction, catch_reaction, finally_reaction.
  replace (length h + 1 + 1 + 1) with (length h + 3) by lia.
  replace (length h + 1 + 1) with (length h + 2) by lia.
  rewrite <- !app_assoc. reflexivity.
Qed.

(** ** Lists *)

Lemma sum_list_with_insert {A} (f : A -> nat) (l : list A) i x y :
  l !! i = Some x ->
  sum_list_with f (<[i:=y]> l) + f x = sum_list_with f l + f y.
Proof.
  revert i. induction l as [|a l IH]; intros [|i] H; simplify_eq/=; [lia|].
  specialize (IH _ H). lia.
Qed.

Lemma NoDup_bind_lookup {A B} (f : A -> list B) (l : list A) i k x y b :
  NoDup (l ≫= f) -> l !! i = Some x -> l !! k = Some y ->
  b ∈ f x -> b ∈ f y -> i = k.
Proof.
  revert i k. induction l as [|a l IH]; intros i k Hnd Hi Hk Hx Hy.
  { by rewrite lookup_nil in Hi. }
  rewrite bind_cons in Hnd. apply NoDup_app in Hnd as (_ & Hdis & Hnd).
  destruct i as [|i], k as [|k]; simplify_eq/=; auto.
  - exfalso. apply (Hdis b Hx). apply list_elem_of_bind.
    exists y. split; [done|]. by eapply list_elem_of_lookup_2.
  - exfalso. apply (Hdis b Hy). apply list_elem_of_bind.
    exists x. split; [done|]. by eapply list_elem_of_lookup_2.
Qed.

Lemma filter_none {A} (P : A -> Prop) `{!forall x, Decision (P x)} (l : list A) :
  Forall (fun x => ~ P x) l -> filter P l = [].
Proof.
  induction 1 as [|x l Hx _ IH]; [done|]. by rewrite filter_cons_False.
Qed.

Lemma filter_all {A} (P : A -> Prop) `{!forall x, Decision (P x)} (l : list A) :
  Forall P l -> filter P l = l.
Proof.
  induction 1 as [|x l Hx _ IH]; [done|]. rewrite filter_cons_True by done.
  by f_equal.
Qed.

(** ** The layout of the promise store *)

Section Layout.

Context (L : Z) (s : state F) (phs : list phase).
Hypothesis Hc : consistent L s phs.

Lemma started_submitted i t p0 :
  started s !! i = Some (t, p0) -> submitted s !! i = Some t.
Proof using Hc.
  intros H. rewrite (inv_fifo _ _ _ Hc).
  rewrite lookup_app_l.
  - by rewrite list_lookup_fmap, H.
  - rewrite length_fmap. by eapply lookup_lt_Some.
Qed.

Lemma started_elem_submitted t p0 : (t, p0) ∈ started s -> t ∈ submitted s.
Proof using Hc.
  intros [i Hi]%list_elem_of_lookup.
  eapply list_elem_of_lookup_2, started_submitted, Hi.
Qed.

Lemma queue_elem_submitted t : t ∈ queue s -> t ∈ submitted s.
Proof using Hc.
  intros H. rewrite (inv_fifo _ _ _ Hc). apply elem_of_app. by right.
Qed.

Lemma phase_of_started i t p0 :
  started s !! i = Some (t, p0) -> exists ph, phs !! i = Some ph.
Proof using Hc.
  intros H%lookup_lt_Some. apply lookup_lt_is_Some.
  by rewrite (inv_len _ _ _ Hc).
Qed.

Lemma chain_in_cells t p0 a : (t, p0) ∈ started s -> a <= 3 -> p0 + a ∈ cells s.
Proof.
  intros H Ha. apply elem_of_app. right. apply list_elem_of_bind.
  exists (t, p0). split; [|done]. unfold chain_cells. simpl.
  rewrite !elem_of_cons. lia.
Qed.

Lemma promise_in_cells t : t ∈ submitted s -> promise t ∈ cells s.
Proof.
  intros H. apply elem_of_app. left. by apply list_elem_of_fmap_2.
Qed.

Lemma chain_bound t p0 : (t, p0) ∈ started s -> p0 + 3 < length (heap s).
Proof using Hc.
  intros H. pose proof (inv_bound _ _ _ Hc) as Hb.
  rewrite Forall_forall in Hb. apply Hb. by eapply chain_in_cells.
Qed.

Lemma promise_bound t : t ∈ submitted s -> promise t < length (heap s).
Proof using Hc.
  intros H. pose proof (inv_bound _ _ _ Hc) as Hb.
  rewrite Forall_forall in Hb. apply Hb. by apply promise_in_cells.
Qed.

Lemma chains_disjoint i k t p0 t' p0' a b :
  started s !! i = Some (t, p0) -> started s !! k = Some (t', p0') ->
  i <> k -> a <= 3 -> b <= 3 -> p0 + a <> p0' + b.
Proof using Hc.
  intros Hi Hk Hne Ha Hb Heq. apply Hne.
  pose proof (inv_nodup _ _ _ Hc) as Hnd.
  apply NoDup_app in Hnd as (_ & _ & Hnd).
  eapply (NoDup_bind_lookup chain_cells _ i k _ _ (p0 + a) Hnd Hi Hk).
  - unfold chain_cells. simpl. rewrite !elem_of_cons. lia.
  - rewrite Heq. unfold chain_cells. simpl. rewrite !elem_of_cons. lia.
Qed.

Lemma promise_not_chain t' t p0 a :
  t' ∈ submitted s -> (t, p0) ∈ started s -> a <= 3 -> promise t' <> p0 + a.
Proof using Hc.
  intros Ht' Ht Ha Heq.
  pose proof (inv_nodup _ _ _ Hc) as Hnd.
  apply NoDup_app in Hnd as (_ & Hdis & _).
  apply (Hdis (promise t')); [by apply list_elem_of_fmap_2|].
  rewrite Heq. apply list_elem_of_bind.
  exists (t, p0). split; [|done]. unfold chain_cells. simpl.
  rewrite !elem_of_cons. lia.
Qed.

Lemma promise_inj i k t t' :
  submitted s !! i = Some t -> submitted s !! k = Some t' ->
  promise t = promise t' -> i = k.
Proof using Hc.
  intros Hi Hk Heq.
  pose proof (inv_nodup _ _ _ Hc) as Hnd.
  apply NoDup_app in Hnd as (Hnd & _ & _).
  apply (NoDup_lookup _ i k (promise t) Hnd).
  - by rewrite list_lookup_fmap, Hi.
  - by rewrite list_lookup_fmap, Hk, Heq.
Qed.

Lemma started_promise_ne i k t p0 t' p0' :
  started s !! i = Some (t, p0) -> started s !! k = Some (t', p0') ->
  i <> k -> promise t <> promise t'.
Proof using Hc.
  intros Hi Hk Hne Heq. apply Hne.
  eapply promise_inj; eauto using started_submitted.
Qed.

Lemma queue_promise_ne t p0 t' :
  (t, p0) ∈ started s -> t' ∈ queue s -> promise t <> promise t'.
Proof using Hc.
  intros [i Hi]%list_elem_of_lookup [k Hk]%list_elem_of_lookup Heq.
  assert (submitted s !! (length (started s) + k) = Some t') as Hk'.
  { rewrite (inv_fifo _ _ _ Hc). rewrite lookup_app_r; rewrite length_fmap; [|lia].
    by replace (length (started s) + k - length (started s)) with k by lia. }
  pose proof (promise_inj _ _ _ _ (started_submitted _ _ _ Hi) Hk' Heq).
  apply lookup_lt_Some in Hi. lia.
Qed.

(** The view of a started task only depends on its footprint. *)
Lemma not_in_footprint t p0 q :
  q ∉ footprint t p0 <->
  q <> promise t /\ q <> p0 /\ q <> p0 + 1 /\ q <> p0 + 2 /\ q <> p0 + 3.
Proof.
  unfold footprint, chain_cells. simpl. rewrite !elem_of_cons, elem_of_nil.
  tauto.
Qed.

Lemma other_footprint i k t p0 t' p0' q :
  started s !! i = Some (t, p0) -> started s !! k = Some (t', p0') ->
  i <> k -> q ∈ footprint t' p0' -> q ∉ footprint t p0.
Proof using Hc.
  intros Hi Hk Hne Hq. apply not_in_footprint.
  assert ((t, p0) ∈ started s) by (by eapply list_elem_of_lookup_2).
  assert ((t', p0') ∈ started s) by (by eapply list_elem_of_lookup_2).
  assert (t ∈ submitted s) by (by eapply started_elem_submitted).
  assert (t' ∈ submitted s) by (by eapply started_elem_submitted).
  pose proof (started_promise_ne _ _ _ _ _ _ Hi Hk Hne).
  pose proof (fun a b => chains_disjoint _ _ _ _ _ _ a b Hi Hk Hne) as Hd.
  pose proof (fun a => promise_not_chain t' t p0 a ltac:(done) ltac:(done)) as Hp1.
  pose proof (fun a => promise_not_chain t t' p0' a ltac:(done) ltac:(done)) as Hp2.
  unfold footprint, chain_cells in Hq. simpl in Hq.
  rewrite !elem_of_cons, elem_of_nil in Hq.
  pose proof (Hd 0 0). pose proof (Hd 0 1). pose proof (Hd 0 2). pose proof (Hd 0 3).
  pose proof (Hd 1 0). pose proof (Hd 1 1). pose proof (Hd 1 2). pose proof (Hd 1 3).
  pose proof (Hd 2 0). pose proof (Hd 2 1). pose proof (Hd 2 2). pose proof (Hd 2 3).
  pose proof (Hd 3 0). pose proof (Hd 3 1). pose proof (Hd 3 2). pose proof (Hd 3 3).
  pose proof (Hp1 0). pose proof (Hp1 1). pose proof (Hp1 2). pose proof (Hp1 3).
  pose proof (Hp2 0). pose proof (Hp2 1). pose proof (Hp2 2). pose proof (Hp2 3).
  lia.
Qed.

Lemma other_owner i k t p0 t' p0' j :
  started s !! i = Some (t, p0) -> started s !! k = Some (t', p0') ->
  i <> k -> owns p0 j -> ~ owns p0' j.
Proof using Hc.
  intros Hi Hk Hne [H1 H2] [H3 H4].
  pose proof (fun a b => chains_disjoint _ _ _ _ _ _ a b Hi Hk Hne) as Hd.
  pose proof (Hd 1 1). pose proof (Hd 1 2). pose proof (Hd 1 3).
  pose proof (Hd 2 1). pose proof (Hd 2 2). pose proof (Hd 2 3).
  pose proof (Hd 3 1). pose proof (Hd 3 2). pose proof (Hd 3 3).
  lia.
Qed.

End Layout.

(** ** One started task moves on

    A transition that only touches the footprint of one started task, the
    microtasks it owns and the resolutions of its promise keeps the state
    consistent once the view of that task is the view of its new phase. *)
Lemma consistent_advance L s s' phs i t p0 ph ph' pre mid add radd :
  consistent L s phs ->
  started s !! i = Some (t, p0) -> phs !! i = Some ph ->
  concurrency s' = concurrency s -> queue s' = queue s ->
  submitted s' = submitted s -> started s' = started s ->
  length (heap s') = length (heap s) ->
  (forall q, q ∉ footprint t p0 -> heap s' !! q = heap s !! q) ->
  jobs s = pre ++ mid -> jobs s' = mid ++ add ->
  Forall (owns p0) pre -> Forall (owns p0) add ->
  resolutions s' = resolutions s ++ radd -> Forall (about (promise t)) radd ->
  view_of s' t p0 = view_at t p0 ph' ->
  (activeCount s' + Z.of_nat (occupies ph)
   = activeCount s + Z.of_nat (occupies ph'))%Z ->
  (activeCount s' <= activeCount s)%Z ->
  consistent L s' (<[i := ph']> phs).
Proof.
  intros Hc Hi Hph HL Hq Hsub Hst Hlen Hheap Hjobs Hjobs' Hpre Hadd Hres Hradd
    Hview Hac Hle.
  assert (Hin : (t, p0) ∈ started s) by (by eapply list_elem_of_lookup_2).
  split.
  - rewrite HL. apply Hc.
  - rewrite Hsub, Hst, Hq. apply Hc.
  - unfold cells. rewrite Hsub, Hst. apply Hc.
  - unfold cells. rewrite Hsub, Hst, Hlen. apply Hc.
  - rewrite length_insert, Hst. apply Hc.
  - intros k t' p0' phk Hk Hphk. rewrite Hst in Hk.
    destruct (decide (i = k)) as [<-|Hne].
    + rewrite list_lookup_insert_eq in Hphk
        by (rewrite (inv_len _ _ _ Hc); by eapply lookup_lt_Some).
      by simplify_eq.
    + rewrite list_lookup_insert_ne in Hphk by done.
      rewrite <- (inv_chain _ _ _ Hc k t' p0' phk Hk Hphk).
      assert (forall q, q ∈ footprint t' p0' -> heap s' !! q = heap s !! q) as Hfp.
      { intros q Hq'. apply Hheap. eapply other_footprint; eauto. }
      unfold view_of. f_equal.
      * apply Hfp. unfold footprint, chain_cells. simpl. rewrite !elem_of_cons. auto.
      * apply Hfp. unfold footprint, chain_cells. simpl. rewrite !elem_of_cons. auto.
      * apply Hfp. unfold footprint, chain_cells. simpl. rewrite !elem_of_cons. auto.
      * apply Hfp. unfold footprint, chain_cells. simpl. rewrite !elem_of_cons. auto 6.
      * apply Hfp. unfold footprint, chain_cells. simpl. rewrite !elem_of_cons. auto.
      * rewrite Hjobs, Hjobs', !filter_app.
        rewrite (filter_none _ pre), (filter_none _ add), app_nil_r; [done| |].
        -- eapply Forall_impl; [exact Hadd|]. intros j Hj.
           exact (other_owner L s phs Hc i k t p0 t' p0' j Hi Hk Hne Hj).
        -- eapply Forall_impl; [exact Hpre|]. intros j Hj.
           exact (other_owner L s phs Hc i k t p0 t' p0' j Hi Hk Hne Hj).
      * rewrite Hres, filter_app, (filter_none _ radd), app_nil_r; [done|].
        eapply Forall_impl; [exact Hradd|]. intros r Hr Hr'.
        unfold about in *. 
        eapply (started_promise_ne L s phs Hc i k); eauto. congruence.
  - intros j Hj. rewrite Hjobs' in Hj. rewrite Hst.
    apply elem_of_app in Hj as [Hj|Hj].
    + apply (inv_jobs _ _ _ Hc). rewrite Hjobs. apply elem_of_app. by right.
    + exists t, p0. split; [done|]. rewrite Forall_forall in Hadd. auto.
  - rewrite Hres, Hlen. apply Forall_app. split; [apply Hc|].
    eapply Forall_impl; [exact Hradd|]. intros r Hr. unfold about in Hr.
    simpl. rewrite Hr. eapply promise_bound; eauto using started_elem_submitted.
  - intros t' Ht'. rewrite Hq in Ht'.
    destruct (inv_queue _ _ _ Hc t' Ht') as [H1 H2].
    pose proof (queue_promise_ne L s phs Hc t p0 t' Hin Ht') as Hne.
    split.
    + rewrite Hheap; [done|]. apply not_in_footprint.
      pose proof (fun a => promise_not_chain L s phs Hc t' t p0 a
                    (queue_elem_submitted L s phs Hc t' Ht') Hin) as Hp.
      pose proof (Hp 0). pose proof (Hp 1). pose proof (Hp 2). pose proof (Hp 3).
      lia.
    + rewrite Hres, filter_app, H2. simpl. apply filter_none.
      eapply Forall_impl; [exact Hradd|]. intros r Hr Hr'.
      unfold about in *. congruence.
  - pose proof (sum_list_with_insert occupies phs i ph ph' Hph).
    rewrite (inv_active _ _ _ Hc) in Hac. lia.
  - pose proof (inv_cap _ _ _ Hc). lia.
Qed.

(** ** [processQueue] and [runTask] *)

Lemma lookup_app_plus {A} (h l : list A) i :
  (h ++ l) !! (length h + i) = l !! i.
Proof.
  rewrite lookup_app_r by lia. f_equal. lia.
Qed.

Lemma processQueue_idle s :
  ~ (activeCount s < concurrency s)%Z \/ queue s = [] -> processQueue s = s.
Proof.
  unfold processQueue. intros [H|H].
  - by rewrite bool_decide_eq_false_2.
  - rewrite H. by destruct (bool_decide _ && _).
Qed.

Lemma processQueue_start s t q :
  (activeCount s < concurrency s)%Z -> queue s = t :: q ->
  processQueue s = runTask t (set_queue q s).
Proof.
  unfold processQueue. intros H Hq.
  rewrite bool_decide_eq_true_2 by done. by rewrite Hq.
Qed.

Lemma consistent_runTask L s phs t q :
  consistent L s phs -> queue s = t :: q -> (activeCount s < L)%Z ->
  consistent L (runTask t (set_queue q s)) (phs ++ [InFlight]).
Proof.
  intros Hc Hq Hlt. rewrite runTask_eq.
  assert (Htq : t ∈ queue s) by (rewrite Hq; left).
  destruct (inv_queue _ _ _ Hc t Htq) as [Hcell Hnores].
  pose proof (inv_bound _ _ _ Hc) as Hb. rewrite Forall_forall in Hb.
  match goal with |- consistent _ ?x _ => set (s' := x) end.
  assert (Hcells : cells s' = cells s ++ chain_cells (t, length (heap s))).
  { unfold cells. simpl. rewrite bind_app. simpl. by rewrite app_assoc. }
  split; [| |rewrite Hcells|rewrite Hcells|..]; clear Hcells; subst s'; simpl.
  - apply Hc.
  - rewrite (inv_fifo _ _ _ Hc), Hq, fmap_app. simpl.
    by rewrite <- app_assoc.
  - apply NoDup_app. split; [apply Hc|]. split.
    + intros x Hx%Hb. unfold chain_cells. simpl.
      rewrite !elem_of_cons, elem_of_nil. lia.
    + unfold chain_cells. simpl.
      repeat (apply NoDup_cons; split;
              [rewrite ?elem_of_cons, elem_of_nil; lia|]).
      apply NoDup_nil_2.
  - apply Forall_app. split.
    + apply Forall_forall. intros x Hx%Hb. rewrite length_app. lia.
    + unfold chain_cells. simpl. rewrite length_app. simpl.
      repeat (apply Forall_cons; split; [lia|]). apply Forall_nil_2.
  - rewrite !length_app. simpl. by rewrite (inv_len _ _ _ Hc).
  - intros i t' p0' ph Hi Hph.
    destruct (decide (i < length (started s))) as [Hlt'|Hge].
    + rewrite lookup_app_l in Hi by done.
      rewrite lookup_app_l in Hph by (by rewrite (inv_len _ _ _ Hc)).
      rewrite <- (inv_chain _ _ _ Hc i t' p0' ph Hi Hph).
      assert ((t', p0') ∈ started s) as Hin by (by eapply list_elem_of_lookup_2).
      pose proof (chain_bound _ _ _ Hc _ _ Hin).
      pose proof (promise_bound _ _ _ Hc _ (started_elem_submitted _ _ _ Hc _ _ Hin)).
      unfold view_of. simpl. f_equal; apply lookup_app_l; lia.
    + rewrite lookup_app_r in Hi by lia.
      rewrite lookup_app_r in Hph by (rewrite (inv_len _ _ _ Hc); lia).
      rewrite (inv_len _ _ _ Hc) in Hph.
      destruct (i - length (started s)) as [|m]; simpl in *; [|done].
      simplify_eq. unfold view_of, view_at. simpl.
      f_equal.
      * apply lookup_snoc_here.
      * by rewrite (lookup_app_plus _ _ 1).
      * by rewrite (lookup_app_plus _ _ 2).
      * by rewrite (lookup_app_plus _ _ 3).
      * rewrite lookup_app_l; [done|]. by eapply lookup_lt_Some.
      * apply filter_none. apply Forall_forall. intros j Hj [Ho1 Ho2].
        destruct (inv_jobs _ _ _ Hc j Hj) as (t2 & p2 & Hin & Ho3 & Ho4).
        pose proof (chain_bound _ _ _ Hc _ _ Hin). lia.
      * done.
  - intros j Hj. destruct (inv_jobs _ _ _ Hc j Hj) as (t' & p0' & Hin & Ho).
    exists t', p0'. split; [|done]. apply elem_of_app. by left.
  - eapply Forall_impl; [apply Hc|]. intros r Hr. simpl in *.
    rewrite length_app. lia.
  - intros t' Ht'.
    assert (t' ∈ queue s) as Ht'q by (rewrite Hq; by right).
    destruct (inv_queue _ _ _ Hc t' Ht'q) as [H1 H2]. split; [|done].
    rewrite lookup_app_l; [done|]. by eapply lookup_lt_Some.
  - rewrite sum_list_with_app. simpl. rewrite (inv_active _ _ _ Hc). lia.
  - lia.
Qed.

Lemma invariant_processQueue L s phs :
  consistent L s phs ->
  length (queue s) <= 1 \/ (L - 1 <= activeCount s)%Z ->
  exists phs', invariant L (processQueue s) phs' /\
               work (processQueue s) phs' = work s phs /\
               (phs' = phs \/ phs' = phs ++ [InFlight]).
Proof.
  intros Hc Hslack.
  destruct (decide (activeCount s < L)%Z) as [Hlt|Hge];
    [destruct (queue s) as [|t q] eqn:Hq|].
  - rewrite processQueue_idle by auto. exists phs. split; [|auto].
    split; [done|]. by rewrite Hq.
  - rewrite (processQueue_start s t q); [|by rewrite (inv_limit _ _ _ Hc)|done].
    exists (phs ++ [InFlight]). split; [|split; [|auto]].
    + split; [by apply consistent_runTask|].
      rewrite runTask_eq. simpl. intros Hne.
      destruct Hslack as [Hs|Hs]; [|lia].
      simpl in Hs. destruct q; [done|simpl in Hs; lia].
    + unfold work. rewrite runTask_eq. simpl. rewrite Hq.
      rewrite sum_list_with_app. simpl. lia.
  - rewrite processQueue_idle by (rewrite (inv_limit _ _ _ Hc); auto).
    exists phs. split; [|auto]. split; [done|]. intros _. lia.
Qed.

(** ** Settling a promise *)

Lemma settlePromise_pending p o s rs :
  heap s !! p = Some (Cell None rs) ->
  settlePromise p o s =
  State (concurrency s) (queue s) (activeCount s)
        (<[p := Cell (Some o) []]> (heap s))
        (jobs s ++ ((fun r => (r, o)) <$> rs))
        (submitted s) (started s) (resolutions s).
Proof. unfold settlePromise. by intros ->. Qed.

Lemma settlePromise_settled p o s o' rs :
  heap s !! p = Some (Cell (Some o') rs) -> settlePromise p o s = s.
Proof. unfold settlePromise. by intros ->. Qed.

Lemma settlePromise_processQueue p o s :
  p < length (heap s) ->
  settlePromise p o (processQueue s) = processQueue (settlePromise p o s).
Proof.
  intros Hp.
  destruct (lookup_lt_is_Some_2 _ _ Hp) as [[[o'|] rs] Hcell].
  { rewrite (settlePromise_settled p o s o' rs Hcell).
    destruct (decide (activeCount s < concurrency s)%Z) as [Hlt|Hge];
      [destruct (queue s) as [|t q] eqn:Hq|].
    - rewrite processQueue_idle by auto.
      by rewrite (settlePromise_settled p o s o' rs Hcell).
    - rewrite (processQueue_start s t q) by done. rewrite runTask_eq.
      eapply settlePromise_settled. simpl. by rewrite lookup_app_l.
    - rewrite processQueue_idle by auto.
      by rewrite (settlePromise_settled p o s o' rs Hcell). }
  rewrite (settlePromise_pending p o s rs Hcell).
  destruct (decide (activeCount s < concurrency s)%Z) as [Hlt|Hge];
    [destruct (queue s) as [|t q] eqn:Hq|].
  - rewrite !processQueue_idle by auto.
    by rewrite (settlePromise_pending p o s rs Hcell), Hq.
  - rewrite (processQueue_start s t q) by done.
    erewrite processQueue_start; [|simpl; done|simpl; done].
    rewrite !runTask_eq. simpl.
    erewrite settlePromise_pending by (simpl; rewrite lookup_app_l; done).
    simpl. rewrite length_insert, insert_app_l by done. done.
  - rewrite !processQueue_idle by auto.
    by rewrite (settlePromise_pending p o s rs Hcell).
Qed.

(** ** The invariant is kept by every event *)

Lemma consistent_init L : consistent (F:=F) L (simplePool L) [].
Proof.
  split; simpl; try done.
  - apply NoDup_nil_2.
  - intros j Hj. by apply elem_of_nil in Hj.
  - intros t Ht. by apply elem_of_nil in Ht.
  - lia.
Qed.

Lemma schedule_eq f s :
  schedule f s =
  (length (heap s),
   processQueue
     (State (concurrency s) (queue s ++ [Task f (length (heap s))])
        (activeCount s) (heap s ++ [Cell None []]) (jobs s)
        (submitted s ++ [Task f (length (heap s))]) (started s)
        (resolutions s))).
Proof. reflexivity. Qed.

Lemma consistent_push L s phs f :
  consistent L s phs ->
  consistent L
    (State (concurrency s) (queue s ++ [Task f (length (heap s))])
       (activeCount s) (heap s ++ [Cell None []]) (jobs s)
       (submitted s ++ [Task f (length (heap s))]) (started s)
       (resolutions s)) phs.
Proof.
  intros Hc.
  pose proof (inv_bound _ _ _ Hc) as Hb. rewrite Forall_forall in Hb.
  split; simpl.
  - apply Hc.
  - by rewrite (inv_fifo _ _ _ Hc), app_assoc.
  - unfold cells. simpl. rewrite fmap_app, <- app_assoc. simpl.
    apply (proj1 (NoDup_Permutation_proper _ _ (Permutation_middle _ _ _))).
    apply NoDup_cons. split; [|apply Hc].
    intros Hx%Hb. lia.
  - unfold cells. simpl. rewrite fmap_app, <- app_assoc. simpl.
    rewrite length_app. simpl.
    apply Forall_forall. intros x Hx. 
    assert (x = length (heap s) \/ x ∈ cells s) as [->|Hx'%Hb]; [|lia|lia].
    unfold cells. rewrite !elem_of_app in *. rewrite elem_of_cons in Hx. tauto.
  - apply Hc.
  - intros i t p0 ph Hi Hph.
    rewrite <- (inv_chain _ _ _ Hc i t p0 ph Hi Hph).
    assert ((t, p0) ∈ started s) as Hin by (by eapply list_elem_of_lookup_2).
    pose proof (chain_bound _ _ _ Hc _ _ Hin).
    pose proof (promise_bound _ _ _ Hc _ (started_elem_submitted _ _ _ Hc _ _ Hin)).
    unfold view_of. simpl. f_equal; apply lookup_app_l; lia.
  - apply Hc.
  - eapply Forall_impl; [apply Hc|]. intros r Hr. simpl in *.
    rewrite length_app. lia.
  - intros t [Ht| ->%list_elem_of_singleton]%elem_of_app.
    + destruct (inv_queue _ _ _ Hc t Ht) as [H1 H2]. split; [|done].
      rewrite lookup_app_l; [done|]. by eapply lookup_lt_Some.
    + simpl. split; [apply lookup_snoc_here|].
      apply filter_none. eapply Forall_impl; [apply Hc|].
      intros r Hr. unfold about. simpl in *. lia.
  - apply Hc.
  - apply Hc.
Qed.

Lemma invariant_schedule L s phs f :
  invariant L s phs ->
  exists phs', invariant L (schedule f s).2 phs' /\
               work (schedule f s).2 phs' = work s phs + 4 /\
               (phs' = phs \/ phs' = phs ++ [InFlight]).
Proof.
  intros [Hc Hfull]. rewrite schedule_eq. simpl.
  pose proof (consistent_push L s phs f Hc) as Hc'.
  destruct (invariant_processQueue L _ phs Hc') as (phs' & Hinv & Hwork & Hphs).
  - simpl. destruct (queue s) as [|t q]; [left; simpl; lia|].
    right. specialize (Hfull ltac:(done)). lia.
  - exists phs'. split; [done|]. split; [|done]. rewrite Hwork. unfold work.
    simpl. rewrite length_app. simpl. lia.
Qed.

Lemma footprint_facts L s phs i t p0 :
  consistent L s phs -> started s !! i = Some (t, p0) ->
  p0 + 3 < length (heap s) /\ promise t < length (heap s) /\
  promise t <> p0 /\ promise t <> p0 + 1 /\ promise t <> p0 + 2 /\
  promise t <> p0 + 3.
Proof.
  intros Hc Hi.
  assert ((t, p0) ∈ started s) as Hin by (by eapply list_elem_of_lookup_2).
  pose proof (started_elem_submitted _ _ _ Hc _ _ Hin) as Hsub.
  pose proof (chain_bound _ _ _ Hc _ _ Hin).
  pose proof (promise_bound _ _ _ Hc _ Hsub).
  pose proof (fun a => promise_not_chain _ _ _ Hc t t p0 a Hsub Hin) as Hp.
  pose proof (Hp 0). pose proof (Hp 1). pose proof (Hp 2). pose proof (Hp 3).
  lia.
Qed.

Ltac heap_lookups :=
  repeat first
    [ rewrite list_lookup_insert_eq by (rewrite ?length_insert; lia)
    | rewrite list_lookup_insert_ne by lia ].

Lemma invariant_settle L s phs p o :
  invariant L s phs -> p ∈ (inflight s).*2 ->
  exists i t,
    started s !! i = Some (t, p) /\ phs !! i = Some InFlight /\
    invariant L (settlePromise p o s) (<[i := AwaitThen o]> phs) /\
    work (settlePromise p o s) (<[i := AwaitThen o]> phs) + 1 = work s phs.
Proof.
  intros [Hc Hfull] Hp.
  apply list_elem_of_fmap in Hp as ([t p'] & -> & Hin). simpl.
  apply list_elem_of_filter in Hin as [Hpend Hin]. simpl in Hpend.
  apply list_elem_of_lookup in Hin as [i Hi].
  destruct (phase_of_started _ _ _ Hc _ _ _ Hi) as [ph Hph].
  pose proof (inv_chain _ _ _ Hc _ _ _ _ Hi Hph) as Hview.
  destruct (footprint_facts _ _ _ _ _ _ Hc Hi) as (Hb & Hbp & Hn0 & Hn1 & Hn2 & Hn3).
  unfold view_of, view_at in Hview. injection Hview as H0 H1 H2 H3 H4 H5 H6.
  assert (ph = InFlight) as ->.
  { unfold pending in Hpend. rewrite H0 in Hpend. by destruct ph. }
  simpl in *.
  rewrite (settlePromise_pending _ _ _ _ H0).
  exists i, t. split; [done|]. split; [done|]. split.
  - split; [|exact Hfull].
    eapply (consistent_advance L s _ phs i t p' InFlight (AwaitThen o)
              [] (jobs s) [(then_reaction t p', o)] []); simpl; eauto.
    + by rewrite length_insert.
    + intros q Hq%not_in_footprint. apply list_lookup_insert_ne. lia.
    + apply Forall_cons. split; [unfold owns; simpl; lia|done].
    + by rewrite app_nil_r.
    + unfold view_of, view_at. simpl. f_equal; heap_lookups; try done.
      rewrite filter_app, H5. simpl.
      rewrite filter_cons_True by (unfold owns; simpl; lia). done.
    + lia.
  - unfold work. simpl.
    pose proof (sum_list_with_insert remaining phs i InFlight (AwaitThen o) Hph).
    simpl in *. lia.
Qed.

Lemma tick_owner L s phs j js :
  consistent L s phs -> jobs s = j :: js ->
  exists i t p0 ph,
    started s !! i = Some (t, p0) /\ phs !! i = Some ph /\
    waiting_job t p0 ph = [j] /\ filter (owns p0) js = [].
Proof.
  intros Hc Hjobs.
  destruct (inv_jobs _ _ _ Hc j) as (t & p0 & Hin & Hown).
  { rewrite Hjobs. left. }
  apply list_elem_of_lookup in Hin as [i Hi].
  destruct (phase_of_started _ _ _ Hc _ _ _ Hi) as [ph Hph].
  pose proof (inv_chain _ _ _ Hc _ _ _ _ Hi Hph) as Hview.
  unfold view_of, view_at in Hview. injection Hview as _ _ _ _ _ H5 _.
  rewrite Hjobs, filter_cons_True in H5 by done.
  exists i, t, p0, ph. repeat split; try done.
  - destruct ph; simpl in *; simplify_eq; done.
  - destruct ph; simpl in *; simplify_eq; done.
Qed.

Ltac advance_side Hjs H6 :=
  first
    [ by rewrite !length_insert
    | lia
    | (let q := fresh "q" in let Hq := fresh "Hq" in
       intros q Hq%not_in_footprint; heap_lookups; done)
    | (repeat (apply Forall_cons; split; [unfold owns, about; simpl; lia|]);
       apply Forall_nil_2)
    | (unfold view_of, view_at; simpl; f_equal; heap_lookups;
       rewrite ?filter_app, ?Hjs, ?H6; simpl;
       rewrite ?filter_cons_True by (unfold owns, about; simpl; lia);
       done)
    | done ].

Lemma invariant_tick L s phs j js :
  invariant L s phs -> jobs s = j :: js ->
  exists phs', invariant L (runJob j (set_jobs js s)) phs' /\
               work (runJob j (set_jobs js s)) phs' + 1 = work s phs /\
               (outcome_in <$> phs' = outcome_in <$> phs \/
                outcome_in <$> phs' = (outcome_in <$> phs) ++ [None]).
Proof.
  intros [Hc Hfull] Hjobs.
  destruct (tick_owner _ _ _ _ _ Hc Hjobs) as (i & t & p0 & ph & Hi & Hph & Hj & Hjs).
  pose proof (inv_chain _ _ _ Hc _ _ _ _ Hi Hph) as Hview.
  destruct (footprint_facts _ _ _ _ _ _ Hc Hi) as (Hb & Hbp & Hn0 & Hn1 & Hn2 & Hn3).
  unfold view_of, view_at in Hview. injection Hview as H0 H1 H2 H3 H4 H5 H6.
  destruct ph as [|o|o|o|o]; simpl in Hj; simplify_eq.
  - (* the [then] reaction *)
    destruct o as [v|e]; simpl in *.
    + unfold resolve.
      erewrite (settlePromise_pending (promise t)) by (simpl; exact H4).
      erewrite (settlePromise_pending (p0 + 1))
        by (simpl; heap_lookups; exact H1).
      simpl. rewrite app_nil_r.
      exists (<[i := AwaitCatch (Fulfilled v)]> phs). split.
      * split; [|exact Hfull].
        eapply (consistent_advance L s _ phs i t p0 (AwaitThen (Fulfilled v))
                  (AwaitCatch (Fulfilled v))
                  [(then_reaction t p0, Fulfilled v)] js
                  [(catch_reaction t p0, Fulfilled VUndefined)]
                  [(promise t, Fulfilled v)]); simpl; eauto;
          advance_side Hjs H6.
      * split; [|left; rewrite list_fmap_insert; simpl;
                    apply list_insert_id; by rewrite list_lookup_fmap, Hph].
        unfold work. simpl.
        pose proof (sum_list_with_insert remaining phs i _
                      (AwaitCatch (Fulfilled v)) Hph).
        simpl in *. lia.
    + erewrite (settlePromise_pending (p0 + 1)) by (simpl; exact H1).
      simpl.
      exists (<[i := AwaitCatch (Rejected e)]> phs). split.
      * split; [|exact Hfull].
        eapply (consistent_advance L s _ phs i t p0 (AwaitThen (Rejected e))
                  (AwaitCatch (Rejected e))
                  [(then_reaction t p0, Rejected e)] js
                  [(catch_reaction t p0, Rejected e)] []); simpl; eauto;
          try (by rewrite app_nil_r); advance_side Hjs H6.
      * split; [|left; rewrite list_fmap_insert; simpl;
                    apply list_insert_id; by rewrite list_lookup_fmap, Hph].
        unfold work. simpl.
        pose proof (sum_list_with_insert remaining phs i _
                      (AwaitCatch (Rejected e)) Hph).
        simpl in *. lia.
  - (* the [catch] reaction *)
    destruct o as [v|e]; simpl in *.
    + erewrite (settlePromise_pending (p0 + 2)) by (simpl; exact H2).
      simpl.
      exists (<[i := AwaitFinally (Fulfilled v)]> phs). split.
      * split; [|exact Hfull].
        eapply (consistent_advance L s _ phs i t p0 (AwaitCatch (Fulfilled v))
                  (AwaitFinally (Fulfilled v))
                  [(catch_reaction t p0, Fulfilled VUndefined)] js
                  [(finally_reaction p0, Fulfilled VUndefined)] []);
          simpl; eauto; try (by rewrite app_nil_r); advance_side Hjs H6.
      * split; [|left; rewrite list_fmap_insert; simpl;
                    apply list_insert_id; by rewrite list_lookup_fmap, Hph].
        unfold work. simpl.
        pose proof (sum_list_with_insert remaining phs i _
                      (AwaitFinally (Fulfilled v)) Hph).
        simpl in *. lia.
    + unfold reject.
      erewrite (settlePromise_pending (promise t)) by (simpl; exact H4).
      erewrite (settlePromise_pending (p0 + 2))
        by (simpl; heap_lookups; exact H2).
      simpl. rewrite app_nil_r.
      exists (<[i := AwaitFinally (Rejected e)]> phs). split.
      * split; [|exact Hfull].
        eapply (consistent_advance L s _ phs i t p0 (AwaitCatch (Rejected e))
                  (AwaitFinally (Rejected e))
                  [(catch_reaction t p0, Rejected e)] js
                  [(finally_reaction p0, Fulfilled VUndefined)]
                  [(promise t, Rejected e)]); simpl; eauto;
          advance_side Hjs H6.
      * split; [|left; rewrite list_fmap_insert; simpl;
                    apply list_insert_id; by rewrite list_lookup_fmap, Hph].
        unfold work. simpl.
        pose proof (sum_list_with_insert remaining phs i _
                      (AwaitFinally (Rejected e)) Hph).
        simpl in *. lia.
  - (* the [finally] reaction *)
    simpl in *.
    rewrite settlePromise_processQueue by (simpl; lia).
    erewrite (settlePromise_pending (p0 + 3)) by (simpl; exact H3).
    simpl. rewrite app_nil_r.
    match goal with |- context [processQueue ?x] => set (s1 := x) end.
    assert (consistent L s1 (<[i := Done o]> phs)) as Hc1.
    { eapply (consistent_advance L s s1 phs i t p0 (AwaitFinally o) (Done o)
                [(finally_reaction p0, Fulfilled VUndefined)] js [] []);
        subst s1; simpl; eauto; try (by rewrite app_nil_r);
        advance_side Hjs H6. }
    destruct (invariant_processQueue L s1 _ Hc1) as (phs' & Hinv & Hwork & Hphs).
    { subst s1. simpl. destruct (queue s) as [|t' q]; [left; simpl; lia|].
      right. specialize (Hfull ltac:(done)). lia. }
    exists phs'. split; [done|]. split.
    + rewrite Hwork. unfold work. subst s1. simpl.
      pose proof (sum_list_with_insert remaining phs i _ (Done o) Hph).
      simpl in *. lia.
    + assert (outcome_in <$> <[i := Done o]> phs = outcome_in <$> phs) as Hsame.
      { rewrite list_fmap_insert. simpl. apply list_insert_id.
        by rewrite list_lookup_fmap, Hph. }
      destruct Hphs as [-> | ->]; [by left|right].
      by rewrite fmap_app, Hsame.
Qed.

Lemma invariant_step L s phs e s' :
  invariant L s phs -> step e s = Some s' -> exists phs', invariant L s' phs'.
Proof.
  intros Hinv Hstep. destruct e as [f|p o|]; simpl in Hstep.
  - simplify_eq.
    destruct (invariant_schedule L s phs f Hinv) as (phs' & H & _). eauto.
  - case_bool_decide as Hp; simplify_eq.
    destruct (invariant_settle L s phs p o Hinv Hp) as (i & t & _ & _ & H & _).
    eauto.
  - destruct (jobs s) as [|j js] eqn:Hjobs; simplify_eq.
    destruct (invariant_tick L s phs j js Hinv Hjobs) as (phs' & H & _). eauto.
Qed.

Lemma reachable_invariant L s : reachable L s -> exists phs, invariant L s phs.
Proof.
  induction 1 as [|s e s' _ [phs IH] Hstep].
  - exists []. split; [apply consistent_init|done].
  - eauto using invariant_step.
Qed.

Lemma run_reachable L es s s' :
  reachable L s -> run es s = Some s' -> reachable L s'.
Proof.
  revert s. induction es as [|e es IH]; intros s Hs Hrun; simpl in Hrun.
  - by simplify_eq.
  - destruct (step e s) as [s1|] eqn:Hstep; simpl in Hrun; [|done].
    eapply IH; [|done]. by eapply reachable_step.
Qed.

Lemma run_invariant L es s :
  run es (simplePool L) = Some s -> exists phs, invariant L s phs.
Proof.
  intros Hrun. eapply reachable_invariant, run_reachable; [|done].
  apply reachable_init.
Qed.

(** ** Counting *)

Lemma occupied_count (P : task F * pid -> Prop) `{!forall x, Decision (P x)}
    (l : list (task F * pid)) phs :
  length phs = length l ->
  (forall i x ph, l !! i = Some x -> phs !! i = Some ph -> P x ->
                  occupies ph = 1) ->
  length (filter P l) <= sum_list_with occupies phs.
Proof.
  revert phs. induction l as [|x l IH]; intros [|ph phs] Hlen Hocc;
    simplify_eq/=; [lia|].
  specialize (IH phs ltac:(done) (fun i => Hocc (S i))).
  rewrite filter_cons. destruct (decide (P x)) as [HP|HP]; simpl; [|lia].
  pose proof (Hocc 0 x ph eq_refl eq_refl HP). lia.
Qed.

Lemma sum_occupies_le phs : sum_list_with occupies phs <= length phs.
Proof.
  induction phs as [|ph phs IH]; simpl; [lia|]. destruct ph; simpl; lia.
Qed.

Lemma sum_remaining_le phs : sum_list_with remaining phs <= 4 * length phs.
Proof.
  induction phs as [|ph phs IH]; simpl; [lia|]. destruct ph; simpl; lia.
Qed.

Lemma work_le L s phs :
  consistent L s phs -> work s phs <= 4 * length (submitted s).
Proof.
  intros Hc. unfold work. rewrite (inv_fifo _ _ _ Hc), length_app, length_fmap.
  pose proof (sum_remaining_le phs). rewrite (inv_len _ _ _ Hc) in *. lia.
Qed.

(** What the view of a started task says about its promises. *)
Lemma view_outcomes L s phs i t p0 ph :
  consistent L s phs -> started s !! i = Some (t, p0) -> phs !! i = Some ph ->
  outcome_of s p0 = outcome_in ph /\
  outcome_of s (promise t) = delivered ph /\
  filter (about (promise t)) (resolutions s) =
    match delivered ph with Some o => [(promise t, o)] | None => [] end /\
  (pending s p0 = true <-> ph = InFlight) /\
  filter (owns p0) (jobs s) = waiting_job t p0 ph.
Proof.
  intros Hc Hi Hph.
  pose proof (inv_chain _ _ _ Hc _ _ _ _ Hi Hph) as Hview.
  unfold view_of, view_at in Hview. injection Hview as H0 H1 H2 H3 H4 H5 H6.
  unfold outcome_of, pending. rewrite H0, H4.
  repeat split; try done; destruct ph; simpl; try done.
Qed.


Lemma delivered_occupies ph : delivered ph = None -> occupies ph = 1.
Proof. by destruct ph as [|[]|[]|[]|[]]. Qed.

(** ** The claims about the pool *)

(** C1. With a concurrency limit [L > 0], in every state the pool can
    reach, whatever was scheduled and in whatever order operations
    completed, [activeCount] is between [0] and [L]; the calls [task.fn()]
    whose promise has not settled, and the started tasks whose own promise
    is still pending, are never more than [activeCount]. *)
Theorem active_never_exceeds_limit (L : Z) (es : list (event F)) s :
  (0 < L)%Z -> run es (simplePool L) = Some s ->
  (0 <= activeCount s <= L)%Z /\
  (Z.of_nat (length (inflight s)) <= activeCount s)%Z /\
  (Z.of_nat (length (unsettled s)) <= activeCount s)%Z.
Proof.
  intros HL Hrun. destruct (run_invariant L es s Hrun) as [phs [Hc Hfull]].
  pose proof (inv_cap _ _ _ Hc). pose proof (inv_active _ _ _ Hc) as Hac.
  split; [lia|]. rewrite Hac. split; apply inj_le.
  - apply occupied_count; [apply Hc|].
    intros i [t p0] ph Hi Hph Hp. simpl in Hp.
    destruct (view_outcomes _ _ _ _ _ _ _ Hc Hi Hph) as (_ & _ & _ & Hpend & _).
    apply Hpend in Hp. by subst.
  - apply occupied_count; [apply Hc|].
    intros i [t p0] ph Hi Hph Hp. simpl in Hp.
    destruct (view_outcomes _ _ _ _ _ _ _ Hc Hi Hph) as (_ & Hout & _).
    apply delivered_occupies. rewrite <- Hout.
    unfold pending, outcome_of in *.
    destruct (heap s !! promise t) as [[[?|] ?]|]; simpl; done.
Qed.

(** Every step appends to the two logs. *)
Lemma runTask_logs t s :
  submitted (runTask t s) = submitted s /\
  started (runTask t s) = started s ++ [(t, length (heap s))].
Proof. by rewrite runTask_eq. Qed.

Lemma processQueue_logs s :
  submitted (processQueue s) = submitted s /\
  started s `prefix_of` started (processQueue s).
Proof.
  unfold processQueue. destruct (_ && _); [|done].
  destruct (queue s) as [|t q]; [done|].
  destruct (runTask_logs t (set_queue q s)) as [-> ->]. simpl.
  split; [done|]. by eexists.
Qed.

Lemma settlePromise_logs p o s :
  submitted (settlePromise p o s) = submitted s /\
  started (settlePromise p o s) = started s /\
  queue (settlePromise p o s) = queue s /\
  activeCount (settlePromise p o s) = activeCount s /\
  concurrency (settlePromise p o s) = concurrency s.
Proof.
  unfold settlePromise. by destruct (heap s !! p) as [[[?|] ?]|].
Qed.

Lemma runJob_logs j s :
  submitted (runJob j s) = submitted s /\
  started s `prefix_of` started (runJob j s).
Proof.
  destruct j as [[k h d] o]. unfold runJob. simpl.
  assert (forall v, submitted (runHandler h v s) = submitted s /\
                    started s `prefix_of` started (runHandler h v s)) as Hh.
  { intros v. destruct h as [t|t|]; simpl; unfold resolve, reject.
    - destruct (settlePromise_logs (promise t) (Fulfilled v)
        (set_resolutions (resolutions s ++ [(promise t, Fulfilled v)]) s))
        as (-> & -> & _). done.
    - destruct (settlePromise_logs (promise t) (Rejected v)
        (set_resolutions (resolutions s ++ [(promise t, Rejected v)]) s))
        as (-> & -> & _). done.
    - apply (processQueue_logs (set_activeCount (activeCount s - 1) s)). }
  destruct k, o;
    repeat match goal with
      | |- context [settlePromise ?p ?o ?x] =>
          destruct (settlePromise_logs p o x) as (-> & -> & _)
      end; auto.
Qed.

Lemma step_logs e s s' :
  step e s = Some s' ->
  submitted s `prefix_of` submitted s' /\ started s `prefix_of` started s'.
Proof.
  destruct e as [f|p o|]; intros Hstep; [unfold step in Hstep|simpl in Hstep..].
  - assert (s' = (schedule f s).2) as -> by congruence.
    rewrite schedule_eq. simpl.
    match goal with |- context [processQueue ?x] =>
      destruct (processQueue_logs x) as [-> Hpre] end.
    simpl in *. split; [by eexists|done].
  - case_bool_decide; simplify_eq.
    by destruct (settlePromise_logs p o s) as (-> & -> & _).
  - destruct (jobs s) as [|j js]; simplify_eq.
    destruct (runJob_logs j (set_jobs js s)) as [-> Hpre]. done.
Qed.

(** C2. Tasks start in the order of submission: in every reachable state
    the tasks started so far, in the order [runTask] was invoked on them,
    followed by the queue, are exactly the tasks submitted so far in the
    order of their [schedule] calls; and every further event only appends
    to the submission log and to the start log. *)
Theorem start_order_is_submission_order (L : Z) (es : list (event F)) s :
  run es (simplePool L) = Some s ->
  submitted s = (started s).*1 ++ queue s /\
  forall e s', step e s = Some s' ->
    submitted s `prefix_of` submitted s' /\
    started s `prefix_of` started s' /\
    submitted s' = (started s').*1 ++ queue s'.
Proof.
  intros Hrun. destruct (run_invariant L es s Hrun) as [phs Hinv].
  split; [apply Hinv|]. intros e s' Hstep.
  destruct (step_logs e s s' Hstep) as [H1 H2].
  destruct (invariant_step L s phs e s' Hinv Hstep) as [phs' [Hc' _]].
  repeat split; try done. apply Hc'.
Qed.

(** ** Running the microtasks *)

Lemma tick_needs_work L s phs j js :
  invariant L s phs -> jobs s = j :: js -> 0 < work s phs.
Proof.
  intros Hinv Hjobs.
  destruct (invariant_tick L s phs j js Hinv Hjobs) as (? & _ & Hw & _). lia.
Qed.


(** ** Running to completion *)

Lemma choose_in pick (x : task F * pid) xs : choose pick x xs ∈ x :: xs.
Proof.
  unfold choose. apply list_elem_of_In, nth_In.
  apply Nat.mod_upper_bound. simpl. lia.
Qed.

Lemma settle_needs_work L s phs x :
  invariant L s phs -> x ∈ inflight s -> 0 < work s phs.
Proof.
  intros Hinv Hx.
  destruct (invariant_settle L s phs x.2 (Fulfilled VUndefined) Hinv)
    as (? & ? & _ & _ & _ & Hw); [|lia].
  by apply list_elem_of_fmap_2.
Qed.

Lemma drive_invariant L answer pick fuel : forall s phs,
  invariant L s phs -> work s phs <= fuel ->
  exists phs', invariant L (drive answer pick fuel s) phs' /\
    idle (drive answer pick fuel s) = true /\
    submitted (drive answer pick fuel s) = submitted s /\
    started s `prefix_of` started (drive answer pick fuel s) /\
    (forall i t p0 o,
       started (drive answer pick fuel s) !! i = Some (t, p0) ->
       (outcome_in <$> phs') !! i = Some (Some o) ->
       (outcome_in <$> phs) !! i = Some (Some o) \/ o = answer t).
Proof.
  induction fuel as [|k IH]; intros s phs Hinv Hwork; simpl.
  - destruct (jobs s) as [|j js] eqn:Hjobs.
    + destruct (inflight s) as [|x xs] eqn:Hfl.
      * exists phs. unfold idle. rewrite Hjobs, Hfl. auto 10.
      * pose proof (settle_needs_work L s phs x Hinv). rewrite Hfl in *.
        specialize (H ltac:(left)). lia.
    + pose proof (tick_needs_work L s phs j js Hinv Hjobs). lia.
  - destruct (jobs s) as [|j js] eqn:Hjobs.
    + destruct (inflight s) as [|x xs] eqn:Hfl.
      * exists phs. unfold idle. rewrite Hjobs, Hfl. auto 10.
      * pose proof (choose_in pick x xs) as Hch. rewrite <- Hfl in Hch.
        destruct (choose pick x xs) as [t p].
        destruct (invariant_settle L s phs p (answer t) Hinv)
          as (i0 & t0 & Hi0 & Hph0 & Hinv1 & Hw).
        { by apply (list_elem_of_fmap_2 snd) in Hch. }
        assert (t0 = t) as ->.
        { apply list_elem_of_filter in Hch as [_ Hin].
          apply list_elem_of_lookup in Hin as [i1 Hi1].
          destruct Hinv as [Hc _].
          destruct (decide (i0 = i1)) as [->|Hne]; [congruence|].
          pose proof (chains_disjoint _ _ _ Hc _ _ _ _ _ _ 0 0 Hi0 Hi1 Hne).
          lia. }
        destruct (IH _ _ Hinv1 ltac:(lia))
          as (phs' & Hinv' & Hidle & Hsub & Hst & Hans).
        destruct (settlePromise_logs p (answer t) s) as (Hsub1 & Hst1 & _).
        exists phs'. split; [done|]. split; [done|]. split; [|split].
        -- by rewrite Hsub, Hsub1.
        -- by rewrite <- Hst1.
        -- intros i t' p0 o Hi Hph.
           destruct (Hans i t' p0 o Hi Hph) as [Hold|Hnew]; [|by right].
           rewrite list_fmap_insert in Hold.
           destruct (decide (i0 = i)) as [<-|Hne].
           ++ rewrite list_lookup_insert_eq in Hold
                by (rewrite length_fmap; by eapply lookup_lt_Some).
              simplify_eq/=. right.
              rewrite <- Hst1 in Hi0.
              pose proof (prefix_lookup_Some _ _ _ _ Hi0 Hst). congruence.
           ++ rewrite list_lookup_insert_ne in Hold by done. by left.
    + destruct (invariant_tick L s phs j js Hinv Hjobs)
        as (phs1 & Hinv1 & Hw & Hphs).
      destruct (IH _ _ Hinv1 ltac:(lia))
        as (phs' & Hinv' & Hidle & Hsub & Hst & Hans).
      destruct (runJob_logs j (set_jobs js s)) as [Hsub1 Hst1].
      exists phs'. split; [done|]. split; [done|]. split; [|split].
      * by rewrite Hsub, Hsub1.
      * by etrans.
      * intros i t' p0 o Hi Hph.
        destruct (Hans i t' p0 o Hi Hph) as [Hold|Hnew]; [|by right].
        left. destruct Hphs as [Heq|Heq]; rewrite Heq in Hold; [done|].
        apply lookup_app_Some in Hold as [Hold|[_ Hold]]; [done|].
        by destruct (i - length (outcome_in <$> phs)) as [|[|?]].
Qed.

Lemma idle_all_done L s phs :
  (0 < L)%Z -> invariant L s phs -> idle s = true ->
  queue s = [] /\ activeCount s = 0%Z /\ jobs s = [] /\
  forall i ph, phs !! i = Some ph -> exists o, ph = Done o.
Proof.
  intros HL [Hc Hfull] Hidle. unfold idle in Hidle.
  destruct (jobs s) as [|] eqn:Hjobs; [|done].
  destruct (inflight s) as [|] eqn:Hfl; [|done].
  assert (forall i ph, phs !! i = Some ph -> exists o, ph = Done o) as Hdone.
  { intros i ph Hph.
    destruct (lookup_lt_is_Some_2 (started s) i) as [[t p0] Hi].
    { rewrite <- (inv_len _ _ _ Hc). by eapply lookup_lt_Some. }
    destruct (view_outcomes _ _ _ _ _ _ _ Hc Hi Hph) as (_ & _ & _ & Hpend & H5).
    rewrite Hjobs in H5. destruct ph; simplify_eq/=; eauto.
    assert ((t, p0) ∈ inflight s) as Hin.
    { apply list_elem_of_filter. split; [by apply Hpend|].
      by eapply list_elem_of_lookup_2. }
    rewrite Hfl in Hin. by apply elem_of_nil in Hin. }
  assert (sum_list_with occupies phs = 0) as Hsum.
  { clear -Hdone. induction phs as [|ph phs IH]; [done|]. simpl.
    destruct (Hdone 0 ph eq_refl) as [o ->]. simpl.
    apply IH. intros i. apply (Hdone (S i)). }
  pose proof (inv_active _ _ _ Hc) as Hac. rewrite Hsum in Hac.
  repeat split; try done.
  destruct (queue s); [done|]. specialize (Hfull ltac:(done)). lia.
Qed.


(** With a limit [L > 0], running the pool to completion starts every
    task and settles its promise with the outcome of its own operation. *)
Lemma drive_settles_all (L : Z) (es : list (event F)) s
    (answer : task F -> outcome) (pick : list (task F * pid) -> nat)
    (fuel : nat) :
  (0 < L)%Z -> run es (simplePool L) = Some s ->
  4 * length (submitted s) <= fuel ->
  concurrency (drive answer pick fuel s) = L /\
  queue (drive answer pick fuel s) = [] /\
  activeCount (drive answer pick fuel s) = 0%Z /\
  submitted (drive answer pick fuel s) = submitted s /\
  (started (drive answer pick fuel s)).*1 = submitted s /\
  forall t, t ∈ submitted s ->
    exists p0 o,
      (t, p0) ∈ started (drive answer pick fuel s) /\
      outcome_of (drive answer pick fuel s) p0 = Some o /\
      outcome_of (drive answer pick fuel s) (promise t) = Some o /\
      (outcome_of s p0 = None -> o = answer t).
Proof.
  intros HL Hrun Hfuel.
  destruct (run_invariant L es s Hrun) as [phs [Hc Hfull]].
  pose proof (work_le _ _ _ Hc) as Hw.
  destruct (drive_invariant L answer pick fuel s phs (conj Hc Hfull) ltac:(lia))
    as (phs' & Hinv' & Hidle & Hsub & Hst & Hans).
  destruct (idle_all_done L _ phs' HL Hinv' Hidle) as (Hq & Hac & _ & Hdone).
  destruct Hinv' as [Hc' _].
  split; [apply Hc'|]. split; [done|]. split; [done|]. split; [done|].
  split.
  { by rewrite <- Hsub, (inv_fifo _ _ _ Hc'), Hq, app_nil_r. }
  intros t Ht. rewrite <- Hsub, (inv_fifo _ _ _ Hc'), Hq, app_nil_r in Ht.
  apply list_elem_of_fmap in Ht as ([t' p0] & -> & Hin).
  apply list_elem_of_lookup in Hin as [i Hi]. simpl.
  destruct (phase_of_started _ _ _ Hc' _ _ _ Hi) as [ph Hph].
  destruct (Hdone i ph Hph) as [o ->].
  destruct (view_outcomes _ _ _ _ _ _ _ Hc' Hi Hph) as (H0 & H4 & _).
  exists p0, o. split; [by eapply list_elem_of_lookup_2|].
  split; [done|]. split; [done|]. intros Hnone.
  destruct (Hans i t' p0 o Hi) as [Hold|Hnew]; [|exfalso|done].
  { by rewrite list_lookup_fmap, Hph. }
  rewrite list_lookup_fmap in Hold.
  destruct (phs !! i) as [ph0|] eqn:Hph0; simplify_eq/=.
  destruct (lookup_lt_is_Some_2 (started s) i) as [[t0 p1] Hi0].
  { rewrite <- (inv_len _ _ _ Hc). by eapply lookup_lt_Some. }
  pose proof (prefix_lookup_Some _ _ _ _ Hi0 Hst) as Hi0'.
  assert (t0 = t' /\ p1 = p0) as [-> ->] by (split; congruence).
  destruct (view_outcomes _ _ _ _ _ _ _ Hc Hi0 Hph0) as (H0' & _).
  congruence.
Qed.




(** ** The advance loop of the specification *)

Lemma advance_processQueue s :
  length (queue s) <= 1 \/ (concurrency s - 1 <= activeCount s)%Z ->
  advance s = processQueue s.
Proof.
  intros Hslack. unfold advance.
  destruct (queue s) as [|t q] eqn:Hq; simpl.
  { by rewrite processQueue_idle by auto. }
  case_bool_decide as Hlt.
  - rewrite Hq. rewrite (processQueue_start s t q Hlt Hq).
    destruct q as [|t2 q2]; [done|]. simpl.
    rewrite bool_decide_eq_false_2; [done|].
    rewrite runTask_eq. simpl in *. lia.
  - by rewrite processQueue_idle by auto.
Qed.

(** C5. The pool of the specification, whose advance step is a loop, and
    the implementation, whose [processQueue] starts at most one task per
    call, make the same transition on every event from every state the
    implementation can reach: each scheduling adds one task and each
    completion frees one slot, so the loop never finds a second task to
    start. *)
Theorem advance_loop_refines_processQueue
    (L : Z) (es : list (event F)) s (e : event F) :
  run es (simplePool L) = Some s -> spec_step e s = step e s.
Proof.
  intros Hrun. destruct (run_invariant L es s Hrun) as [phs [Hc Hfull]].
  destruct e as [f|p o|]; simpl; [|done|].
  - f_equal. unfold spec_schedule, schedule. simpl.
    apply advance_processQueue. simpl.
    destruct (queue s) as [|t q]; [left; simpl; lia|].
    right. specialize (Hfull ltac:(done)). rewrite (inv_limit _ _ _ Hc). lia.
  - destruct (jobs s) as [|j js] eqn:Hjobs; [done|]. f_equal.
    destruct (tick_owner _ _ _ _ _ Hc Hjobs)
      as (i & t & p0 & ph & Hi & Hph & Hj & Hjs).
    destruct ph as [|o|o|o|o]; simpl in Hj; simplify_eq; try done.
    simpl. do 2 f_equal. apply advance_processQueue. simpl.
    destruct (queue s) as [|t' q]; [left; simpl; lia|].
    right. specialize (Hfull ltac:(done)). rewrite (inv_limit _ _ _ Hc). lia.
Qed.

(** C6. While fewer than [L] tasks have been submitted, a [schedule] call
    starts its task inside the call: nothing was waiting, the task is not
    left in the queue, [task.fn()] is the next call made, and the
    operation is in flight when [schedule] returns.  So with [L >= T],
    each of [T] tasks starts in its own [schedule] call. *)
Theorem schedule_starts_immediately_below_limit
    (L : Z) (es : list (event F)) s (f : F) :
  run es (simplePool L) = Some s ->
  (Z.of_nat (length (submitted s)) < L)%Z ->
  queue s = [] /\
  queue (schedule f s).2 = [] /\
  started (schedule f s).2
    = started s ++ [(Task f (schedule f s).1, S (schedule f s).1)] /\
  (Task f (schedule f s).1, S (schedule f s).1) ∈ inflight (schedule f s).2.
Proof.
  intros Hrun Hlt. destruct (run_invariant L es s Hrun) as [phs [Hc Hfull]].
  assert (activeCount s < L)%Z as Hac.
  { rewrite (inv_active _ _ _ Hc). pose proof (sum_occupies_le phs).
    rewrite (inv_len _ _ _ Hc) in *.
    assert (length (started s) <= length (submitted s)); [|lia].
    rewrite (inv_fifo _ _ _ Hc), length_app, length_fmap. lia. }
  assert (queue s = []) as Hq.
  { destruct (queue s); [done|]. specialize (Hfull ltac:(done)). lia. }
  split; [done|]. rewrite schedule_eq. simpl.
  erewrite processQueue_start;
    [|simpl; by rewrite (inv_limit _ _ _ Hc)|simpl; by rewrite Hq].
  rewrite runTask_eq. simpl. rewrite length_app. simpl.
  replace (length (heap s) + 1) with (S (length (heap s))) by lia.
  split; [done|]. split; [done|].
  apply list_elem_of_filter. split.
  - unfold pending. simpl.
    replace (S (length (heap s))) with (length (heap s ++ [Cell None []]))
      by (rewrite length_app; simpl; lia).
    by rewrite lookup_snoc_here.
  - apply elem_of_app. right. left.
Qed.

(** C7. With a limit [L <= 0] nothing ever starts: only [schedule] calls
    can happen, [task.fn()] is never called, every task submitted is
    still in the queue, whose length is the number of [schedule] calls
    made, and the promise of every submitted task is pending in every
    state the pool reaches. *)
Theorem nothing_starts_without_slots (L : Z) (es : list (event F)) s :
  (L <= 0)%Z -> run es (simplePool L) = Some s ->
  started s = [] /\ queue s = submitted s /\
  length (queue s) = length es /\
  (forall e, e ∈ es -> exists f, e = EvSchedule f) /\
  forall t, t ∈ submitted s -> outcome_of s (promise t) = None.
Proof.
  intros HL Hrun.
  set (P := fun s : state F =>
    (concurrency s <= 0)%Z /\ activeCount s = 0%Z /\ started s = [] /\
    jobs s = [] /\ queue s = submitted s /\
    Forall (fun c => result c = None) (heap s)).
  assert (forall es s0 s, P s0 -> run es s0 = Some s ->
            P s /\ length (queue s) = length (queue s0) + length es /\
            forall e, e ∈ es -> exists f, e = EvSchedule f) as Hind.
  { clear. induction es as [|e es IH]; intros s0 s HP Hrun; simpl in Hrun.
    - simplify_eq. split; [done|]. split; [simpl; lia|].
      intros e He. by apply elem_of_nil in He.
    - destruct (step e s0) as [s1|] eqn:Hstep; simpl in Hrun; [|done].
      destruct HP as (HL & Hac & Hst & Hjobs & Hq & Hheap).
      destruct e as [f|p o|]; [unfold step in Hstep|simpl in Hstep..].
      + apply (inj Some) in Hstep. rewrite schedule_eq in Hstep.
        simpl in Hstep.
        rewrite processQueue_idle in Hstep by (left; simpl; lia).
        subst s1. edestruct IH as (HP' & Hlen & Hall); [|exact Hrun|].
        { repeat split; simpl; try done; [by rewrite Hq|].
          apply Forall_app. split; [done|]. by apply Forall_singleton. }
        split; [done|]. simpl in Hlen. rewrite length_app in Hlen. simpl in *.
        split; [lia|].
        intros e [->|He]%elem_of_cons; [eauto|auto].
      + unfold inflight in Hstep. rewrite Hst in Hstep. by simpl in Hstep.
      + by rewrite Hjobs in Hstep. }
  destruct (Hind es (simplePool L) s) as ((_ & _ & Hst & _ & Hq & Hheap) & Hlen & Hall);
    [|done|].
  { repeat split; simpl; try done. }
  split; [done|]. split; [done|]. split; [by simpl in Hlen|]. split; [done|].
  intros t _. unfold outcome_of.
  destruct (heap s !! promise t) as [c|] eqn:Hc; [|done].
  rewrite Forall_forall in Hheap. apply Hheap.
  by eapply list_elem_of_lookup_2.
Qed.

End PoolFacts.

(** ** The claims about the pool on a sample run *)

Section PoolSamples.

Import Samples.

Lemma active_never_exceeds_limit_sample :
  (0 <= activeCount (after 2 trace) <= 2)%Z /\
  (Z.of_nat (length (inflight (after 2 trace))) <= activeCount (after 2 trace))%Z /\
  (Z.of_nat (length (unsettled (after 2 trace))) <= activeCount (after 2 trace))%Z.
Proof.
  apply (active_never_exceeds_limit 2 trace (after 2 trace)).
  - lia.
  - vm_compute. reflexivity.
Defined.

Lemma start_order_is_submission_order_sample :
  submitted (after 2 trace)
    = (started (after 2 trace)).*1 ++ queue (after 2 trace).
Proof.
  assert (run trace (simplePool 2) = Some (after 2 trace)) as Hrun
    by (vm_compute; reflexivity).
  exact (proj1 (start_order_is_submission_order 2 trace (after 2 trace) Hrun)).
Defined.



Lemma advance_loop_refines_processQueue_sample :
  spec_step (EvSchedule 13) (after 2 trace)
  = step (EvSchedule 13) (after 2 trace).
Proof.
  apply (advance_loop_refines_processQueue 2 trace (after 2 trace)).
  vm_compute. reflexivity.
Defined.

Lemma schedule_starts_immediately_below_limit_sample :
  queue (schedule 13 (after 5 three_submitted)).2 = [].
Proof.
  assert (run three_submitted (simplePool 5) = Some (after 5 three_submitted))
    as Hrun by (vm_compute; reflexivity).
  assert (Z.of_nat (length (submitted (after 5 three_submitted))) < 5)%Z as Hlt
    by (vm_compute; reflexivity).
  destruct (schedule_starts_immediately_below_limit 5 three_submitted
              (after 5 three_submitted) 13 Hrun Hlt) as (_ & Hq & _).
  exact Hq.
Defined.

Lemma nothing_starts_without_slots_sample :
  started (after 0 three_submitted) = [] /\
  queue (after 0 three_submitted) = submitted (after 0 three_submitted) /\
  length (queue (after 0 three_submitted)) = 3.
Proof.
  assert (run three_submitted (simplePool 0) = Some (after 0 three_submitted))
    as Hrun by (vm_compute; reflexivity).
  destruct (nothing_starts_without_slots 0 three_submitted
              (after 0 three_submitted) ltac:(lia) Hrun) as (H1 & H2 & H3 & _).
  split; [exact H1|]. split; [exact H2 | exact H3].
Defined.

End PoolSamples.

(* ================================================================== *)
(** * Facts about the tool *)
(* ================================================================== *)

Section Batch.

Context {F : Type}.
Implicit Types (s : state F) (t : task F).

Lemma all_pending_outcome s p : all_pending (heap s) -> outcome_of s p = None.
Proof.
  intros Hh. unfold outcome_of. destruct (heap s !! p) as [c|] eqn:Hc; [|done].
  unfold all_pending in Hh. rewrite Forall_forall in Hh. apply Hh.
  by eapply list_elem_of_lookup_2.
Qed.

Lemma processQueue_pending s :
  all_pending (heap s) -> all_pending (heap (processQueue s)).
Proof.
  intros Hh. unfold processQueue. destruct (_ && _); [|done].
  destruct (queue s) as [|t q]; [done|]. rewrite runTask_eq. simpl.
  apply Forall_app. split; [done|]. by repeat constructor.
Qed.

Lemma schedule_pending (f : F) s :
  all_pending (heap s) -> all_pending (heap (schedule f s).2).
Proof.
  intros Hh. rewrite schedule_eq. simpl. apply processQueue_pending. simpl.
  apply Forall_app. split; [done|]. by repeat constructor.
Qed.

Lemma schedule_submitted (f : F) s :
  submitted (schedule f s).2 = submitted s ++ [Task f (schedule f s).1].
Proof.
  rewrite schedule_eq. simpl.
  match goal with |- context [processQueue ?x] =>
    destruct (processQueue_logs x) as [-> _] end.
  done.
Qed.

Lemma drive_idle answer pick fuel s :
  jobs s = [] -> inflight s = [] -> drive answer pick fuel s = s.
Proof. intros Hj Hf. destruct fuel; simpl; [done|]. by rewrite Hj, Hf. Qed.

End Batch.

Section ToolFacts.

Import Server.

(** ** Strings *)

Lemma append_cons x (a b : string) : String x a +:+ b = String x (a +:+ b).
Proof. reflexivity. Qed.

Lemma append_nil (b : string) : EmptyString +:+ b = b.
Proof. reflexivity. Qed.

Lemma append_assoc (a b c : string) : (a +:+ b) +:+ c = a +:+ (b +:+ c).
Proof.
  induction a as [|x a IH]; [done|]. rewrite !append_cons. f_equal. exact IH.
Qed.

Lemma append_empty_r (a : string) : a +:+ EmptyString = a.
Proof.
  induction a as [|x a IH]; [done|]. rewrite append_cons. f_equal. exact IH.
Qed.

Lemma prefix_append (a b : string) :
  String.prefix a b = true <-> exists post, b = a +:+ post.
Proof.
  revert b. induction a as [|x a IH]; intros b; simpl.
  - split; [|by destruct b]. intros _. by exists b.
  - destruct b as [|y b].
    + split; [done|]. by intros [post ?].
    + setoid_rewrite append_cons. cbn [String.prefix].
      destruct (Ascii.ascii_dec x y) as [Heq|Hne].
      * subst y. rewrite IH.
        split; intros [post H]; exists post; congruence.
      * split; [done|]. intros [post H]. congruence.
Qed.


(** ** The batch of reply tasks *)

Lemma reply_closures_cons oid cookie videoId c cs :
  reply_closures oid cookie videoId (c :: cs) =
  if (rcount c >? 0)%Z
  then FetchReplies oid (rpid c) cookie videoId
         :: reply_closures oid cookie videoId cs
  else reply_closures oid cookie videoId cs.
Proof.
  unfold reply_closures. rewrite filter_cons.
  destruct (Z.gtb_spec (rcount c) 0) as [Hgt|Hle];
    destruct (decide (0 < rcount c)%Z); try lia; done.
Qed.

Lemma reply_closures_length oid cookie videoId cs :
  length (reply_closures oid cookie videoId cs) <= length cs.
Proof. unfold reply_closures. rewrite length_fmap. apply length_filter. Qed.

Lemma reply_promises_spec oid cookie videoId cs : forall s,
  run (EvSchedule <$> reply_closures oid cookie videoId cs) s
    = Some (reply_promises oid cookie videoId cs s).2 /\
  fn <$> submitted (reply_promises oid cookie videoId cs s).2
    = (fn <$> submitted s) ++ reply_closures oid cookie videoId cs /\
  submitted s `prefix_of` submitted (reply_promises oid cookie videoId cs s).2 /\
  (all_pending (heap s) ->
   all_pending (heap (reply_promises oid cookie videoId cs s).2)) /\
  Forall2 (promise_for oid cookie videoId
             (reply_promises oid cookie videoId cs s).2)
          cs (reply_promises oid cookie videoId cs s).1.
Proof.
  induction cs as [|c cs IH]; intros s.
  { simpl. rewrite app_nil_r. repeat split; try done; constructor. }
  rewrite reply_closures_cons. cbn [reply_promises].
  destruct (rcount c >? 0)%Z eqn:Hc.
  - destruct (schedule (FetchReplies oid (rpid c) cookie videoId) s)
      as [p s1] eqn:Hs.
    assert (s1 = (schedule (FetchReplies oid (rpid c) cookie videoId) s).2)
      as Hs1 by (by rewrite Hs).
    assert (p = (schedule (FetchReplies oid (rpid c) cookie videoId) s).1)
      as Hp by (by rewrite Hs).
    pose proof (schedule_submitted (FetchReplies oid (rpid c) cookie videoId) s)
      as Hsub. rewrite <- Hs1, <- Hp in Hsub.
    destruct (IH s1) as (Hrun & Hfn & Hpre & Hpend & Hall).
    destruct (reply_promises oid cookie videoId cs s1) as [rest s2]. simpl in *.
    split; [by rewrite <- Hs1|]. split.
    { rewrite Hfn, Hsub, fmap_app. simpl. by rewrite <- app_assoc. }
    split.
    { etrans; [|exact Hpre]. rewrite Hsub. by apply prefix_app_r. }
    split.
    { intros Hh. apply Hpend. rewrite Hs1. by apply schedule_pending. }
    constructor; [|done]. unfold promise_for. rewrite Hc.
    exists (Task (FetchReplies oid (rpid c) cookie videoId) p).
    split; [done|]. split; [|done].
    destruct Hpre as [k ->]. rewrite Hsub.
    apply elem_of_app. left. apply elem_of_app. right. left.
  - destruct (IH s) as (Hrun & Hfn & Hpre & Hpend & Hall).
    destruct (reply_promises oid cookie videoId cs s) as [rest s2]. simpl in *.
    repeat split; try done. constructor; [|done].
    unfold promise_for. by rewrite Hc.
Qed.

Lemma Promise_all_fulfilled (s : state closure) (f : comment -> value) cs tasks :
  Forall2 (fun c a => state_of s a = Some (Fulfilled (f c))) cs tasks ->
  Promise_all s tasks = Some (inl (f <$> cs)).
Proof.
  induction 1 as [|c a cs tasks Hc _ IH]; [done|].
  simpl. by rewrite Hc, IH.
Qed.

Lemma Promise_all_waits oid cookie videoId (s : state closure) cs tasks :
  all_pending (heap s) ->
  Forall2 (promise_for oid cookie videoId s) cs tasks ->
  (Promise_all s tasks = None /\ reply_closures oid cookie videoId cs <> []) \/
  ((exists vs, Promise_all s tasks = Some (inl vs)) /\
   reply_closures oid cookie videoId cs = []).
Proof.
  intros Hh. induction 1 as [|c a cs tasks Hc _ IH]; [right; eauto|].
  rewrite reply_closures_cons. unfold promise_for in Hc. simpl.
  destruct (rcount c >? 0)%Z.
  - left. split; [|done]. destruct Hc as (t & -> & _ & _). simpl.
    rewrite (all_pending_outcome s _ Hh).
    destruct IH as [[-> _]|[[vs ->] _]]; done.
  - subst a. simpl. destruct IH as [[-> ?]|[[vs ->] ?]]; [by left|right].
    split; [eauto|done].
Qed.

(** What the orchestration has submitted when it reaches
    [await Promise.all], and what the join returns once the event loop
    has run. *)
Lemma batch_spec (w : world) includeReplies oid cookie videoId cs :
  fn <$> submitted (submitted_batch includeReplies oid cookie videoId cs).2
    = (if includeReplies then reply_closures oid cookie videoId cs else []) /\
  length (submitted_batch includeReplies oid cookie videoId cs).1 = length cs /\
  (submitted (submitted_batch includeReplies oid cookie videoId cs).2 <> [] ->
   Promise_all (submitted_batch includeReplies oid cookie videoId cs).2
     (submitted_batch includeReplies oid cookie videoId cs).1 = None) /\
  Promise_all
    (event_loop w (length cs)
       (submitted_batch includeReplies oid cookie videoId cs).2)
    (submitted_batch includeReplies oid cookie videoId cs).1
    = Some (inl (own_replies w includeReplies oid cookie videoId <$> cs)) /\
  (fun x => fn x.1) <$>
    started (event_loop w (length cs)
               (submitted_batch includeReplies oid cookie videoId cs).2)
    = (if includeReplies then reply_closures oid cookie videoId cs else []).
Proof.
  unfold submitted_batch, replyTasks, event_loop. destruct includeReplies.
  - destruct (reply_promises_spec oid cookie videoId cs (simplePool 5))
      as (Hrun & Hfn & _ & Hpend & Hall).
    specialize (Hpend ltac:(constructor)).
    set (s := (reply_promises oid cookie videoId cs (simplePool 5)).2) in *.
    set (tasks := (reply_promises oid cookie videoId cs (simplePool 5)).1) in *.
    simpl in Hfn.
    assert (length (submitted s) <= length cs) as Hlen.
    { rewrite <- (length_fmap fn), Hfn. apply reply_closures_length. }
    destruct (drive_settles_all 5 _ s (fun t => call w (fn t)) (arrival w)
                (4 * length cs) ltac:(lia) Hrun ltac:(lia))
      as (_ & _ & _ & _ & Hst & Hdone).
    split; [done|]. split; [symmetry; by eapply Forall2_length|]. split.
    { intros Hne.
      destruct (Promise_all_waits oid cookie videoId s cs tasks Hpend Hall)
        as [[H _]|[_ H]]; [done|].
      rewrite H in Hfn. by destruct (submitted s). }
    split.
    { apply Promise_all_fulfilled. eapply Forall2_impl; [exact Hall|].
      intros c a Hc. unfold promise_for, own_replies in *. cbn [andb].
      destruct (rcount c >? 0)%Z; [|by subst].
      destruct Hc as (t & -> & Ht & Hfnt). cbn [state_of].
      destruct (Hdone t Ht) as (p0 & o & _ & _ & Ho & Hans).
      rewrite Ho, (Hans (all_pending_outcome s p0 Hpend)), Hfnt. done. }
    rewrite <- Hfn, <- Hst, <- list_fmap_compose. done.
  - simpl. rewrite drive_idle by done. simpl.
    split; [done|]. split; [by rewrite length_fmap|]. split; [done|].
    split; [|done].
    apply Promise_all_fulfilled.
    induction cs as [|c cs IH]; constructor; done.
Qed.

(** ** Rendering *)

Lemma own_replies_shape w includeReplies oid cookie videoId c :
  (exists rs, own_replies w includeReplies oid cookie videoId c = VArray rs) \/
  own_replies w includeReplies oid cookie videoId c = VStr "fetch_failed".
Proof.
  unfold own_replies, fetchReplies.
  destruct (includeReplies && _); [|eauto].
  destruct (replyReply_endpoint w _) as [d|? ?]; [|by right].
  destruct (replies_data d); [|eauto]. destruct (_ =? _)%Z; eauto.
Qed.

Lemma own_replies_truthy w includeReplies oid cookie videoId c :
  js_or (own_replies w includeReplies oid cookie videoId c) (VArray [])
  = own_replies w includeReplies oid cookie videoId c.
Proof.
  destruct (own_replies_shape w includeReplies oid cookie videoId c)
    as [[rs ->]| ->]; done.
Qed.

Lemma formatCommentWithReplies_own w includeReplies oid cookie videoId c c' :
  formatCommentWithReplies w c'
    (own_replies w includeReplies oid cookie videoId c)
  = Returns (block_of w c' (own_replies w includeReplies oid cookie videoId c)).
Proof.
  unfold block_of.
  destruct (own_replies_shape w includeReplies oid cookie videoId c)
    as [[[|r rs] ->]| ->]; done.
Qed.

Lemma commentWithReplies_lookup cs allReplies i :
  commentWithReplies cs allReplies !! i =
  (fun c => (c, js_or (default VUndefined (allReplies !! i)) (VArray [])))
    <$> cs !! i.
Proof. unfold commentWithReplies. by rewrite list_lookup_imap. Qed.

Lemma commentWithReplies_own (f : comment -> value) cs :
  (forall c, js_or (f c) (VArray []) = f c) ->
  commentWithReplies cs (f <$> cs) = (fun c => (c, f c)) <$> cs.
Proof.
  intros Hf. apply list_eq. intros i.
  rewrite commentWithReplies_lookup, !list_lookup_fmap.
  destruct (cs !! i) as [c|]; [|done]. simpl. by rewrite Hf.
Qed.

Lemma append_each_returns {A} (f : A -> completion string) (g : A -> string)
    (l : list A) : forall md,
  (forall x, x ∈ l -> f x = Returns (g x)) ->
  append_each f l md = Returns (md +:+ concat_strings (g <$> l)).
Proof.
  induction l as [|x l IH]; intros md Hf; simpl.
  - by rewrite append_empty_r.
  - rewrite (Hf x) by left. rewrite IH by (intros y Hy; apply Hf; by right).
    by rewrite append_assoc.
Qed.

Lemma render_own w includeReplies oid cookie videoId md currentPage totalPages cs :
  render w md currentPage totalPages cs
    (own_replies w includeReplies oid cookie videoId <$> cs)
  = Returns
      (((md +:+ "### 💬 评论列表" +:+ nl)
        +:+ concat_strings
              ((fun c => block_of w c
                           (own_replies w includeReplies oid cookie videoId c))
                 <$> cs))
       +:+ footer currentPage totalPages).
Proof.
  unfold render.
  rewrite (commentWithReplies_own _ cs
             (own_replies_truthy w includeReplies oid cookie videoId)).
  rewrite (append_each_returns _ (fun item => block_of w item.1 item.2)).
  - by rewrite <- list_fmap_compose.
  - intros [c v] [c0 [[= -> ->] _]]%list_elem_of_fmap. simpl.
    apply formatCommentWithReplies_own.
Qed.

Lemma generateMarkdownResponse_empty w pageInfo includeReplies cookie videoId oid :
  allComments_of pageInfo = [] ->
  generateMarkdownResponse w pageInfo includeReplies cookie videoId oid
  = ([], Returns
           (header_of pageInfo +:+ "😴 **此页面没有评论。**" +:+ nl +:+ nl
            +:+ "✅ 分析完成。如果视频有更多评论，请尝试请求其他页面。")).
Proof.
  intros Hcs. unfold generateMarkdownResponse.
  change (default [] (hots pageInfo) ++ default [] (replies pageInfo))
    with (allComments_of pageInfo).
  by rewrite Hcs.
Qed.

Lemma generateMarkdownResponse_eq w pageInfo includeReplies cookie videoId oid :
  allComments_of pageInfo <> [] ->
  generateMarkdownResponse w pageInfo includeReplies cookie videoId oid
  = (request_of <$>
       (if includeReplies
        then reply_closures oid cookie videoId (allComments_of pageInfo)
        else []),
     render w (header_of pageInfo) (currentPage_of pageInfo)
       (totalPages_of pageInfo) (allComments_of pageInfo)
       (own_replies w includeReplies oid cookie videoId
          <$> allComments_of pageInfo)).
Proof.
  intros Hcs. unfold generateMarkdownResponse.
  change (default [] (hots pageInfo) ++ default [] (replies pageInfo))
    with (allComments_of pageInfo).
  destruct (batch_spec w includeReplies oid cookie videoId
              (allComments_of pageInfo)) as (_ & _ & _ & Hall & Hreq).
  destruct (allComments_of pageInfo) as [|c cs] eqn:Hcs'; [done|].
  destruct (submitted_batch includeReplies oid cookie videoId (c :: cs))
    as [tasks s]. cbn [fst snd] in *.
  rewrite Hall. f_equal.
  rewrite <- Hreq, <- list_fmap_compose. done.
Qed.

(** ** The calls of [BilibiliAPI] *)

Lemma getVideoInfo_eq w bvid cookie :
  getVideoInfo w bvid cookie =
  ([getVideoInfo_request bvid cookie],
   match view_endpoint w (getVideoInfo_request bvid cookie) with
   | Response d =>
       if (view_code d =? 0)%Z then Returns (view_aid d, view_title d)
       else Throws (JsError None
              ("获取视频信息失败: "
               +:+ str_or ("获取视频信息失败 (" +:+ show_Z (view_code d) +:+ "): "
                           +:+ view_message d) "未知网络错误"))
   | Failure c m =>
       Throws (JsError None ("获取视频信息失败: " +:+ str_or m "未知网络错误"))
   end).
Proof.
  unfold getVideoInfo, try_catch, bind, axios_get, throw, ret, lift. simpl.
  destruct (view_endpoint w _) as [d|c m]; simpl; [|done].
  destruct (view_code d =? 0)%Z; done.
Qed.

Lemma fetchComments_eq w oid page pageSize sort cookie videoId :
  fetchComments w oid page pageSize sort cookie videoId =
  ([fetchComments_request oid page pageSize sort cookie videoId],
   match reply_endpoint w
           (fetchComments_request oid page pageSize sort cookie videoId) with
   | Response d => Returns d
   | Failure c m =>
       if bool_decide (c = Some "ECONNABORTED")
       then Throws (JsError None "请求超时，请稍后重试")
       else Throws (JsError None
              ("获取主评论失败: " +:+ str_or m "未知网络错误"))
   end).
Proof.
  unfold fetchComments, try_catch, bind, axios_get, throw, ret, lift. simpl.
  destruct (reply_endpoint w _) as [d|c m]; simpl; [done|].
  destruct (bool_decide (c = Some "ECONNABORTED")); done.
Qed.

(** ** How computations end *)

Lemma ends_well_bind {A B} (P : B -> Prop) (c : io A) (k : A -> io B) :
  ends_well (fun _ => True) c -> (forall a, ends_well P (k a)) ->
  ends_well P (bind c k).
Proof.
  intros [(a & Ha & _)|(code & m & Hm)] Hk; unfold bind.
  - rewrite Ha. apply Hk.
  - rewrite Hm. right. eauto.
Qed.

Lemma ends_well_ret {A} (P : A -> Prop) a : P a -> ends_well P (ret a).
Proof. left. eauto. Qed.

Lemma ends_well_throw {A} (P : A -> Prop) code m :
  ends_well P (throw (JsError code m)).
Proof. right. eauto. Qed.

Lemma getVideoInfo_ends_well w bvid cookie :
  ends_well (fun _ => True) (getVideoInfo w bvid cookie).
Proof.
  rewrite getVideoInfo_eq. unfold ends_well. simpl.
  destruct (view_endpoint w _) as [d|c m]; [|eauto].
  destruct (view_code d =? 0)%Z; eauto.
Qed.

Lemma fetchComments_ends_well w oid page pageSize sort cookie videoId :
  ends_well (fun _ => True)
    (fetchComments w oid page pageSize sort cookie videoId).
Proof.
  rewrite fetchComments_eq. unfold ends_well. simpl.
  destruct (reply_endpoint w _) as [d|c m]; [eauto|].
  destruct (bool_decide _); eauto.
Qed.

Lemma generateMarkdownResponse_returns w pageInfo includeReplies cookie videoId oid :
  exists md,
    (generateMarkdownResponse w pageInfo includeReplies cookie videoId oid).2
    = Returns md.
Proof.
  destruct (decide (allComments_of pageInfo = [])) as [Hcs|Hcs].
  - rewrite generateMarkdownResponse_empty by done. eauto.
  - rewrite generateMarkdownResponse_eq by done. simpl.
    rewrite render_own. eauto.
Qed.

Lemma oid_of_ends_well w args : ends_well (fun _ => True) (oid_of w args).
Proof.
  unfold oid_of. destruct (needs_lookup args); [|by apply ends_well_ret].
  apply ends_well_bind; [apply getVideoInfo_ends_well|].
  intros a. by apply ends_well_ret.
Qed.

(** The [try] block once the four checks have passed. *)
Lemma getVideoComments_try_valid w args :
  valid_arguments w args = true ->
  getVideoComments_try w args =
  (let! oid := oid_of w args in
   let! response :=
     fetchComments w oid (default 1%Z (arg_page args))
       (default 20%Z (arg_pageSize args)) (default 0%Z (arg_sort args))
       (cookie_of w args) (videoIdForRef_of args) in
   if negb (reply_code response =? 0)%Z then
     throw (JsError None
       ("B 站 API 错误 (" +:+ show_Z (reply_code response) +:+ "): "
        +:+ api_error_message (reply_code response)
              (reply_message_text response)))
   else
     let! markdownResponse :=
       generateMarkdownResponse w (reply_data response)
         (default true (arg_includeReplies args)) (cookie_of w args)
         (videoIdForRef_of args) oid in
     ret (ToolResult [ContentItem "text" markdownResponse])).
Proof.
  unfold valid_arguments, getVideoComments_try.
  intros (((H1 & H2)%andb_true_iff & [H3 H4]%andb_true_iff)%andb_true_iff
          & H5)%andb_true_iff.
  rewrite H1, H5. simpl.
  apply orb_true_iff in H2.
  assert (negb (opt_truthy (arg_bvid args)) && negb (opt_truthy (arg_aid args))
          = false) as ->.
  { destruct H2 as [-> | ->]; simpl; [done|]. apply andb_false_r. }
  assert ((default 20 (arg_pageSize args) <? 1)%Z
          || (default 20 (arg_pageSize args) >? 49)%Z = false) as ->.
  { apply orb_false_iff. split; [lia|]. rewrite Z.gtb_ltb. lia. }
  reflexivity.
Qed.

Lemma getVideoComments_try_invalid w args :
  valid_arguments w args = false ->
  getVideoComments_try w args
  = ([], Throws (JsError None (validation_message w args))).
Proof.
  unfold valid_arguments, getVideoComments_try, validation_message.
  intros H.
  destruct (validateCookie (cookie_of w args)); simpl; [|done].
  destruct (negb (opt_truthy (arg_bvid args)) && negb (opt_truthy (arg_aid args)))
    eqn:H2; [done|].
  destruct ((default 20 (arg_pageSize args) <? 1)%Z
            || (default 20 (arg_pageSize args) >? 49)%Z) eqn:H3; [done|].
  destruct (bool_decide (default 0%Z (arg_sort args) ∈ [0; 1]%Z)) eqn:H5;
    [|done].
  exfalso. simpl in H.
  apply orb_false_iff in H3 as [H3 H4]. rewrite Z.gtb_ltb in H4.
  rewrite !andb_true_r in H.
  apply andb_false_iff in H as [H|H].
  - apply orb_false_iff in H as [Hb Ha]. by rewrite Hb, Ha in H2.
  - apply andb_false_iff in H as [H|H]; lia.
Qed.

Lemma getVideoComments_try_ends_well w args :
  ends_well (fun r => exists md, r = ToolResult [ContentItem "text" md])
    (getVideoComments_try w args).
Proof.
  destruct (valid_arguments w args) eqn:Hv.
  - rewrite getVideoComments_try_valid by done.
    apply ends_well_bind; [apply oid_of_ends_well|]. intros oid.
    apply ends_well_bind; [apply fetchComments_ends_well|]. intros response.
    destruct (negb _); [apply ends_well_throw|].
    apply ends_well_bind.
    + destruct (generateMarkdownResponse_returns w (reply_data response)
                  (default true (arg_includeReplies args)) (cookie_of w args)
                  (videoIdForRef_of args) oid) as [md Hmd].
      left. eauto.
    + intros md. apply ends_well_ret. eauto.
  - rewrite getVideoComments_try_invalid by done. apply ends_well_throw.
Qed.

(** ** The requests sent *)

Lemma bind_log_elem {A B} (c : io A) (k : A -> io B) r :
  r ∈ (bind c k).1 -> r ∈ c.1 \/ exists a, c.2 = Returns a /\ r ∈ (k a).1.
Proof.
  unfold bind. destruct c.2 as [a| |]; simpl; auto.
  intros [H|H]%elem_of_app; eauto.
Qed.

Lemma oid_of_log w args r :
  r ∈ (oid_of w args).1 ->
  r = getVideoInfo_request (default EmptyString (arg_bvid args)) (cookie_of w args).
Proof.
  unfold oid_of. destruct (needs_lookup args).
  - intros [H|(a & _ & H)]%bind_log_elem.
    + rewrite getVideoInfo_eq in H. simpl in H.
      by apply list_elem_of_singleton in H.
    + by apply elem_of_nil in H.
  - intros H. by apply elem_of_nil in H.
Qed.

Lemma generateMarkdownResponse_log w pageInfo includeReplies cookie videoId oid r :
  r ∈ (generateMarkdownResponse w pageInfo includeReplies cookie videoId oid).1 ->
  exists c, c ∈ allComments_of pageInfo /\ (0 < rcount c)%Z /\
            includeReplies = true /\
            r = fetchReplies_request oid (rpid c) cookie videoId.
Proof.
  destruct (decide (allComments_of pageInfo = [])) as [Hcs|Hcs].
  - rewrite generateMarkdownResponse_empty by done.
    intros H. by apply elem_of_nil in H.
  - rewrite generateMarkdownResponse_eq by done. simpl.
    destruct includeReplies; [|intros H; by apply elem_of_nil in H].
    unfold reply_closures. rewrite <- list_fmap_compose.
    intros (c & -> & [Hc Hin]%list_elem_of_filter)%list_elem_of_fmap.
    exists c. done.
Qed.


(** A report begins with its heading. *)
Lemma header_starts currentPage totalPages totalCount :
  exists rest, header currentPage totalPages totalCount = String "#"%char rest.
Proof. unfold header. eexists. reflexivity. Qed.

Lemma generateMarkdownResponse_starts w pageInfo includeReplies cookie videoId oid :
  exists rest,
    (generateMarkdownResponse w pageInfo includeReplies cookie videoId oid).2
    = Returns (String "#"%char rest).
Proof.
  destruct (header_starts (currentPage_of pageInfo) (totalPages_of pageInfo)
              (totalCount_of pageInfo)) as [rest Hh].
  destruct (decide (allComments_of pageInfo = [])) as [Hcs|Hcs].
  - rewrite generateMarkdownResponse_empty by done. unfold header_of.
    rewrite Hh, append_cons. eauto.
  - rewrite generateMarkdownResponse_eq by done. cbn [snd].
    rewrite render_own. unfold header_of. rewrite Hh, !append_cons. eauto.
Qed.

(** ** The claims about the tool *)


(** C9, as the code has it.  With [includeReplies] the orchestration
    submits to the pool exactly one [fetchReplies] task per comment of the
    page whose [rcount] is positive, in the order of the comments, and
    none for the other comments; without it, it submits none.  While a
    submitted task is unsettled [Promise.all] is pending; the comment list
    is rendered from what [Promise.all] returns once the event loop has
    run, which holds for each comment, at its own index, the reply result
    of that comment; and each comment is rendered with the result at its
    index.  (The header of the report is built before the pool is
    created, and a page without comments returns before that.) *)
Theorem reply_tasks_joined_then_paired (w : world) (pageInfo : pageInfo)
    (includeReplies : bool) (cookie : value) (videoId : string) (oid : value) :
  fn <$> submitted
           (submitted_batch includeReplies oid cookie videoId
              (allComments_of pageInfo)).2
    = (if includeReplies
       then reply_closures oid cookie videoId (allComments_of pageInfo)
       else []) /\
  (submitted (submitted_batch includeReplies oid cookie videoId
                (allComments_of pageInfo)).2 <> [] ->
   Promise_all
     (submitted_batch includeReplies oid cookie videoId
        (allComments_of pageInfo)).2
     (submitted_batch includeReplies oid cookie videoId
        (allComments_of pageInfo)).1 = None) /\
  Promise_all
    (event_loop w (length (allComments_of pageInfo))
       (submitted_batch includeReplies oid cookie videoId
          (allComments_of pageInfo)).2)
    (submitted_batch includeReplies oid cookie videoId
       (allComments_of pageInfo)).1
    = Some (inl (own_replies w includeReplies oid cookie videoId
                   <$> allComments_of pageInfo)) /\
  commentWithReplies (allComments_of pageInfo)
    (own_replies w includeReplies oid cookie videoId <$> allComments_of pageInfo)
    = (fun c => (c, own_replies w includeReplies oid cookie videoId c))
        <$> allComments_of pageInfo /\
  (allComments_of pageInfo <> [] ->
   generateMarkdownResponse w pageInfo includeReplies cookie videoId oid
   = (request_of <$>
        (if includeReplies
         then reply_closures oid cookie videoId (allComments_of pageInfo)
         else []),
      Returns
        (((header_of pageInfo +:+ "### 💬 评论列表" +:+ nl)
          +:+ concat_strings
                ((fun c => block_of w c
                             (own_replies w includeReplies oid cookie videoId c))
                   <$> allComments_of pageInfo))
         +:+ footer (currentPage_of pageInfo) (totalPages_of pageInfo)))).
Proof.
  destruct (batch_spec w includeReplies oid cookie videoId
              (allComments_of pageInfo)) as (H1 & _ & H3 & H4 & _).
  split; [done|]. split; [done|]. split; [done|]. split.
  - apply commentWithReplies_own, own_replies_truthy.
  - intros Hcs. rewrite generateMarkdownResponse_eq by done.
    by rewrite render_own.
Qed.

(** C10, as the code has it.  [getVideoComments] never throws: it
    returns a result with exactly one text item.  When the [try] block
    throws, the text is the failure prefix followed by the message of the
    error: this is so when one of the four checks fails, when the video
    lookup or the request for the comment page fails, and when the
    comment API answers with a code other than [0].  When the [try] block
    returns, that result is returned.  Errors about nested replies never
    make the [try] block throw: when the comment page is answered with
    code [0] the text is the report, it does not begin with the failure
    prefix, and it is made of the blocks of the comments; the block of a
    comment whose reply request failed is the comment followed by the
    warning line, and the block of a comment whose reply request was
    answered with an API code other than [0] is the comment alone, as for
    a comment without replies. *)
Theorem getVideoComments_never_throws (w : world) (args : arguments) :
  exists text,
    (getVideoComments w args).2 = Returns (ToolResult [ContentItem "text" text]) /\
    (forall e, (getVideoComments_try w args).2 = Throws e ->
       exists code m, e = JsError code m /\ text = failure_prefix +:+ m) /\
    (forall r, (getVideoComments_try w args).2 = Returns r ->
       r = ToolResult [ContentItem "text" text]) /\
    (valid_arguments w args = false ->
       text = failure_prefix +:+ validation_message w args) /\
    (valid_arguments w args = true ->
     forall e, (oid_of w args).2 = Throws e ->
       (getVideoComments_try w args).2 = Throws e) /\
    (valid_arguments w args = true ->
     forall oid e, (oid_of w args).2 = Returns oid ->
       (fetchComments w oid (default 1%Z (arg_page args))
          (default 20%Z (arg_pageSize args)) (default 0%Z (arg_sort args))
          (cookie_of w args) (videoIdForRef_of args)).2 = Throws e ->
       (getVideoComments_try w args).2 = Throws e) /\
    (valid_arguments w args = true ->
     forall oid response, (oid_of w args).2 = Returns oid ->
       (fetchComments w oid (default 1%Z (arg_page args))
          (default 20%Z (arg_pageSize args)) (default 0%Z (arg_sort args))
          (cookie_of w args) (videoIdForRef_of args)).2 = Returns response ->
       reply_code response <> 0%Z ->
       text = failure_prefix
              +:+ ("B 站 API 错误 (" +:+ show_Z (reply_code response) +:+ "): "
                   +:+ api_error_message (reply_code response)
                         (reply_message_text response))) /\
    (valid_arguments w args = true ->
     forall oid response, (oid_of w args).2 = Returns oid ->
       (fetchComments w oid (default 1%Z (arg_page args))
          (default 20%Z (arg_pageSize args)) (default 0%Z (arg_sort args))
          (cookie_of w args) (videoIdForRef_of args)).2 = Returns response ->
       reply_code response = 0%Z ->
       String.prefix failure_prefix text = false /\
       (allComments_of (reply_data response) <> [] ->
        text =
        ((header_of (reply_data response) +:+ "### 💬 评论列表" +:+ nl)
         +:+ concat_strings
               ((fun c => block_of w c
                            (own_replies w (default true (arg_includeReplies args))
                               oid (cookie_of w args) (videoIdForRef_of args) c))
                  <$> allComments_of (reply_data response)))
        +:+ footer (currentPage_of (reply_data response))
              (totalPages_of (reply_data response))) /\
       (forall c,
          default true (arg_includeReplies args) = true -> (0 < rcount c)%Z ->
          (forall code m,
             replyReply_endpoint w
               (fetchReplies_request oid (rpid c) (cookie_of w args)
                  (videoIdForRef_of args)) = Failure code m ->
             block_of w c
               (own_replies w (default true (arg_includeReplies args)) oid
                  (cookie_of w args) (videoIdForRef_of args) c)
             = _formatSingleCommentContent w c
               +:+ "  ↳ ⚠️ *此评论的楼中楼回复加载失败，请稍后重试。*" +:+ nl
               +:+ (nl +:+ "---" +:+ nl +:+ nl)) /\
          (forall d,
             replyReply_endpoint w
               (fetchReplies_request oid (rpid c) (cookie_of w args)
                  (videoIdForRef_of args)) = Response d ->
             replies_code d <> 0%Z ->
             block_of w c
               (own_replies w (default true (arg_includeReplies args)) oid
                  (cookie_of w args) (videoIdForRef_of args) c)
             = _formatSingleCommentContent w c
               +:+ (nl +:+ "---" +:+ nl +:+ nl)))).
Proof.
  assert (exists text,
    (getVideoComments w args).2 = Returns (ToolResult [ContentItem "text" text]) /\
    (forall e, (getVideoComments_try w args).2 = Throws e ->
       exists code m, e = JsError code m /\ text = failure_prefix +:+ m) /\
    (forall r, (getVideoComments_try w args).2 = Returns r ->
       r = ToolResult [ContentItem "text" text])) as (text & Hret & Hthrow & Hok).
  { unfold getVideoComments, try_catch.
    destruct (getVideoComments_try_ends_well w args)
      as [(r & Hr & md & ->)|(code & m & Hm)].
    - rewrite Hr. exists md. split; [done|]. split; [done|].
      intros r [= <-]. done.
    - rewrite Hm. simpl. exists (failure_prefix +:+ m). split; [done|].
      split; [|done]. intros e [= <-]. eauto. }
  exists text. split; [done|]. split; [done|]. split; [done|].
  split; [|split; [|split; [|split]]].
  5:{ intros Hv oid response Hoid Hresp Hcode.
      destruct (generateMarkdownResponse_returns w (reply_data response)
                  (default true (arg_includeReplies args)) (cookie_of w args)
                  (videoIdForRef_of args) oid) as [md Hmd].
      assert (text = md) as ->.
      { specialize (Hok (ToolResult [ContentItem "text" md])).
        rewrite getVideoComments_try_valid in Hok by done.
        unfold bind at 1 in Hok. rewrite Hoid in Hok. cbn [snd] in Hok.
        unfold bind at 1 in Hok. rewrite Hresp in Hok. cbn [snd] in Hok.
        rewrite Hcode in Hok. cbn [Z.eqb negb] in Hok.
        unfold bind in Hok. rewrite Hmd in Hok. cbn [snd ret] in Hok.
        specialize (Hok eq_refl). by injection Hok. }
      split; [|split].
      - destruct (generateMarkdownResponse_starts w (reply_data response)
                    (default true (arg_includeReplies args)) (cookie_of w args)
                    (videoIdForRef_of args) oid) as [rest Hrest].
        rewrite Hmd in Hrest. by injection Hrest as ->.
      - intros Hcs. rewrite generateMarkdownResponse_eq in Hmd by done.
        cbn [snd] in Hmd. rewrite render_own in Hmd. by injection Hmd.
      - intros c Hinc Hrc. unfold block_of, own_replies. rewrite Hinc.
        apply Z.gtb_lt in Hrc. rewrite Hrc. cbn [andb]. unfold fetchReplies.
        split.
        + intros code m ->. cbn [formatCommentWithReplies].
          by rewrite bool_decide_eq_true_2.
        + intros d -> Hd. apply Z.eqb_neq in Hd.
          destruct (replies_data d); rewrite ?Hd; done. }
  - intros Hv. rewrite getVideoComments_try_invalid in Hthrow by done.
    destruct (Hthrow _ eq_refl) as (code & m & [= <- <-] & ->). done.
  - intros Hv e He. rewrite getVideoComments_try_valid by done.
    unfold bind at 1. by rewrite He.
  - intros Hv oid e Hoid He. rewrite getVideoComments_try_valid by done.
    unfold bind at 1. rewrite Hoid. cbn [snd].
    unfold bind at 1. by rewrite He.
  - intros Hv oid response Hoid Hresp Hcode.
    rewrite getVideoComments_try_valid in Hthrow by done.
    unfold bind at 1 in Hthrow. rewrite Hoid in Hthrow. cbn [snd] in Hthrow.
    unfold bind at 1 in Hthrow. rewrite Hresp in Hthrow. cbn [snd] in Hthrow.
    apply Z.eqb_neq in Hcode. rewrite Hcode in Hthrow. simpl in Hthrow.
    destruct (Hthrow _ eq_refl) as (code & m & [= <- <-] & ->). done.
Qed.

End ToolFacts.

(** ** The tool on a sample page *)

Section ToolSamples.

Import Server Samples.


(** C9 as stated fails: without [includeReplies] no task is submitted for
    a comment that has nested replies. *)
Lemma no_task_without_includeReplies :
  (0 < rcount alice)%Z /\
  alice ∈ allComments_of sample_page /\
  submitted (submitted_batch false (VNum 777) (VStr "SESSDATA=abc")
               "BV1xx411c7mD" (allComments_of sample_page)).2 = [].
Proof.
  split; [reflexivity|]. split; [vm_compute; left | vm_compute; reflexivity].
Qed.

(** C10 as stated fails for one kind of network error: the request for the
    nested replies of a comment fails, and the text returned is the
    report, not the failure text. *)
Lemma reply_failure_is_not_reported :
  replyReply_endpoint sample_world
    (fetchReplies_request (VNum 777) 103 (VStr "SESSDATA=abc") "BV1xx411c7mD")
    = Failure (Some "ECONNABORTED") "timeout of 8000ms exceeded" /\
  fetchReplies_request (VNum 777) 103 (VStr "SESSDATA=abc") "BV1xx411c7mD"
    ∈ (getVideoComments sample_world (sample_args VUndefined)).1 /\
  match (getVideoComments sample_world (sample_args VUndefined)).2 with
  | Returns (ToolResult [ContentItem _ text]) =>
      String.prefix failure_prefix text = false
  | _ => False
  end.
Proof.
  split; [vm_compute; reflexivity|].
  split; [vm_compute; do 3 right; left | vm_compute; reflexivity].
Qed.

End ToolSamples.

(* ================================================================== *)
(** * More about the pool *)
(* ================================================================== *)

Section PoolMore.

Context {F : Type}.
Implicit Types (s : state F) (t : task F).

(** A task waits in the queue only while every slot is taken: in a
    reachable state with a task queued, [activeCount] has reached the
    limit (and with a positive limit it is exactly the limit). *)
Theorem queue_waits_only_when_full (L : Z) (es : list (event F)) s :
  run es (simplePool L) = Some s -> queue s <> [] ->
  (L <= activeCount s)%Z /\ ((0 < L)%Z -> activeCount s = L).
Proof.
  intros Hrun Hq. destruct (run_invariant L es s Hrun) as [phs [Hc Hfull]].
  specialize (Hfull Hq). pose proof (inv_cap _ _ _ Hc). split; [done|]. lia.
Qed.

(** [schedule] hands back a promise that did not exist before and is
    still pending when the call returns, also when the task was started
    inside the call; the task it queued holds that promise. *)
Theorem schedule_returns_fresh_pending_promise (f : F) s :
  (schedule f s).1 = length (heap s) /\
  heap s !! (schedule f s).1 = None /\
  heap (schedule f s).2 !! (schedule f s).1 = Some (Cell None []) /\
  submitted (schedule f s).2 = submitted s ++ [Task f (schedule f s).1].
Proof.
  split; [done|]. split; [by apply lookup_ge_None_2|].
  split; [|apply schedule_submitted].
  rewrite schedule_eq. cbn [fst snd]. unfold processQueue.
  destruct (_ && _); cbn [queue heap]; [|apply lookup_snoc_here].
  destruct (queue s ++ _) as [|t q]; cbn [heap]; [apply lookup_snoc_here|].
  rewrite runTask_eq. cbn [heap set_queue]. rewrite <- app_assoc.
  apply lookup_snoc_here.
Qed.


Lemma advance_loop_queue n : forall s,
  length (queue (advance_loop n s)) <= length (queue s).
Proof.
  induction n as [|n IH]; intros s; cbn [advance_loop]; [done|].
  case_bool_decide; [|done]. destruct (queue s) as [|t q] eqn:Hq; [by rewrite Hq|].
  etrans; [apply IH|]. rewrite runTask_eq. simpl. lia.
Qed.

(** One call of [processQueue] starts one task only: with two slots free
    and two tasks queued it leaves the second task waiting although a
    slot is free, where the loop of the specification would start both.
    The pool keeps its slots busy because every [schedule] call and every
    completion calls [processQueue], not because one call fills them. *)
Theorem processQueue_starts_one_task s t1 t2 q :
  (activeCount s + 2 <= concurrency s)%Z -> queue s = t1 :: t2 :: q ->
  queue (processQueue s) = t2 :: q /\
  started (processQueue s) = started s ++ [(t1, length (heap s))] /\
  (activeCount (processQueue s) < concurrency (processQueue s))%Z /\
  length (queue (advance s)) <= length q /\
  advance s <> processQueue s.
Proof.
  intros Hac Hq.
  assert (length (queue (advance s)) <= length q) as Hadv.
  { unfold advance. rewrite Hq. cbn [length advance_loop].
    rewrite bool_decide_eq_true_2 by lia. rewrite Hq.
    rewrite runTask_eq. cbn [queue activeCount concurrency set_queue].
    rewrite bool_decide_eq_true_2 by lia.
    etrans; [apply advance_loop_queue|]. rewrite runTask_eq. done. }
  rewrite (processQueue_start s t1 (t2 :: q)) by (done || lia).
  rewrite runTask_eq. cbn [queue started activeCount concurrency set_queue heap].
  split; [done|]. split; [done|]. split; [lia|]. split; [done|].
  intros Heq. rewrite Heq in Hadv. simpl in Hadv. lia.
Qed.

End PoolMore.

Lemma processQueue_starts_one_task_sample :
  queue (processQueue (State 2 [Task 1 0; Task 2 1] 0
                         [Cell None []; Cell None []] []
                         [Task 1 0; Task 2 1] [] []))
  = [Task 2 1].
Proof.
  refine (proj1 (processQueue_starts_one_task
           (State 2 [Task 1 0; Task 2 1] 0 [Cell None []; Cell None []] []
                  [Task 1 0; Task 2 1] [] []) (Task 1 0) (Task 2 1) [] _ _)).
  - simpl. lia.
  - reflexivity.
Defined.

Lemma queue_waits_only_when_full_sample :
  (2 <= activeCount (Samples.after 2 Samples.three_submitted))%Z.
Proof.
  assert (run Samples.three_submitted (simplePool 2)
          = Some (Samples.after 2 Samples.three_submitted)) as Hrun
    by (vm_compute; reflexivity).
  refine (proj1 (queue_waits_only_when_full 2 Samples.three_submitted
                   (Samples.after 2 Samples.three_submitted) Hrun _)).
  vm_compute. discriminate.
Defined.


(* ================================================================== *)
(** * More about the tool *)
(* ================================================================== *)

Section ToolMore.

Import Server.

(** Every request of a call, and when it is sent. *)
Lemma getVideoComments_requests w args r :
  r ∈ (getVideoComments w args).1 ->
  valid_arguments w args = true /\
  ((needs_lookup args = true /\
    r = getVideoInfo_request (default EmptyString (arg_bvid args))
          (cookie_of w args)) \/
   (exists oid,
      (oid_of w args).2 = Returns oid /\
      r = fetchComments_request oid (default 1%Z (arg_page args))
            (default 20%Z (arg_pageSize args)) (default 0%Z (arg_sort args))
            (cookie_of w args) (videoIdForRef_of args)) \/
   (exists oid response c,
      (oid_of w args).2 = Returns oid /\
      (fetchComments w oid (default 1%Z (arg_page args))
         (default 20%Z (arg_pageSize args)) (default 0%Z (arg_sort args))
         (cookie_of w args) (videoIdForRef_of args)).2 = Returns response /\
      reply_code response = 0%Z /\
      default true (arg_includeReplies args) = true /\
      c ∈ allComments_of (reply_data response) /\ (0 < rcount c)%Z /\
      r = fetchReplies_request oid (rpid c) (cookie_of w args)
            (videoIdForRef_of args))).
Proof.
  unfold getVideoComments, try_catch. intros Hr.
  assert (r ∈ (getVideoComments_try w args).1) as H.
  { destruct (getVideoComments_try w args).2 as [a|e|] eqn:Hend; try done.
    simpl in Hr. apply elem_of_app in Hr as [Hr|Hr]; [done|].
    unfold bind, lift in Hr. simpl in Hr.
    destruct (message_of e); simpl in Hr; by apply elem_of_nil in Hr. }
  clear Hr. destruct (valid_arguments w args) eqn:Hv.
  2:{ rewrite getVideoComments_try_invalid in H by done.
      by apply elem_of_nil in H. }
  rewrite getVideoComments_try_valid in H by done. split; [done|].
  apply bind_log_elem in H as [H|(oid & Hoid & H)].
  { left. split; [|by apply oid_of_log].
    unfold oid_of in H. destruct (needs_lookup args); [done|].
    by apply elem_of_nil in H. }
  apply bind_log_elem in H as [H|(response & Hresp & H)].
  { right. left. exists oid. split; [done|]. rewrite fetchComments_eq in H.
    simpl in H. by apply list_elem_of_singleton in H. }
  destruct (reply_code response =? 0)%Z eqn:Hcode; simpl in H;
    [|by apply elem_of_nil in H].
  apply bind_log_elem in H as [H|(md & _ & H)]; [|by apply elem_of_nil in H].
  apply generateMarkdownResponse_log in H as (c & Hc & Hrc & Hinc & ->).
  right. right. exists oid, response, c. apply Z.eqb_eq in Hcode. done.
Qed.

(** When the video API answers with a code other than [0], the error
    thrown inside the [try] of [getVideoInfo] is caught by the [catch] of
    the same function, so the message carries the prefix twice; when the
    request itself fails without a message, the default text is used. *)
Theorem getVideoInfo_wraps_its_own_error w bvid cookie :
  (forall d, view_endpoint w (getVideoInfo_request bvid cookie) = Response d ->
     view_code d <> 0%Z ->
     (getVideoInfo w bvid cookie).2 =
     Throws (JsError None
       ("获取视频信息失败: "
        +:+ ("获取视频信息失败 (" +:+ show_Z (view_code d) +:+ "): "
             +:+ view_message d)))) /\
  (forall c, view_endpoint w (getVideoInfo_request bvid cookie)
             = Failure c EmptyString ->
     (getVideoInfo w bvid cookie).2 =
     Throws (JsError None "获取视频信息失败: 未知网络错误")) /\
  (forall d, view_endpoint w (getVideoInfo_request bvid cookie) = Response d ->
     view_code d = 0%Z ->
     (getVideoInfo w bvid cookie).2 = Returns (view_aid d, view_title d)) /\
  (getVideoInfo w bvid cookie).1 = [getVideoInfo_request bvid cookie].
Proof.
  rewrite getVideoInfo_eq. cbn [fst snd].
  split; [|split; [|split]]; try done.
  - intros d -> Hcode. apply Z.eqb_neq in Hcode. by rewrite Hcode.
  - by intros c ->.
  - intros d -> Hcode. by rewrite Hcode.
Qed.

(** A timeout of the comment request is reported with a fixed text,
    whatever message axios gave; any other failure is reported with the
    message of axios, or with the default text when there is none. *)
Theorem fetchComments_failure_messages w oid page pageSize sort cookie videoId :
  (forall m, reply_endpoint w
               (fetchComments_request oid page pageSize sort cookie videoId)
             = Failure (Some "ECONNABORTED") m ->
     (fetchComments w oid page pageSize sort cookie videoId).2
     = Throws (JsError None "请求超时，请稍后重试")) /\
  (forall c m, reply_endpoint w
                 (fetchComments_request oid page pageSize sort cookie videoId)
               = Failure c m ->
     c <> Some "ECONNABORTED" ->
     (fetchComments w oid page pageSize sort cookie videoId).2
     = Throws (JsError None ("获取主评论失败: " +:+ str_or m "未知网络错误"))) /\
  (forall d, reply_endpoint w
               (fetchComments_request oid page pageSize sort cookie videoId)
             = Response d ->
     (fetchComments w oid page pageSize sort cookie videoId).2 = Returns d).
Proof.
  rewrite fetchComments_eq. cbn [fst snd]. split; [|split].
  - by intros m ->.
  - intros c m -> Hc. by rewrite bool_decide_eq_false_2.
  - by intros d ->.
Qed.

(** [fetchReplies] turns every outcome of its request into a value: the
    marker ['fetch_failed'] exactly when the request failed, the replies
    of the answer when its code is [0] and it has some, and an empty
    array otherwise, so an error code of the API is not told apart from a
    comment without replies. *)
Theorem fetchReplies_failure_is_a_value w oid parentRpid cookie videoId :
  (fetchReplies w oid parentRpid cookie videoId = VStr "fetch_failed" <->
   exists c m, replyReply_endpoint w
                 (fetchReplies_request oid parentRpid cookie videoId)
               = Failure c m) /\
  (forall d, replyReply_endpoint w
               (fetchReplies_request oid parentRpid cookie videoId)
             = Response d ->
     fetchReplies w oid parentRpid cookie videoId =
     if (replies_code d =? 0)%Z then VArray (default [] (replies_data d))
     else VArray []).
Proof.
  unfold fetchReplies.
  destruct (replyReply_endpoint w _) as [d|c m].
  - split.
    + split; [|by intros (? & ? & ?)].
      destruct (replies_data d); [destruct (_ =? _)%Z|]; done.
    + intros ? [= <-]. destruct (replies_data d), (_ =? _)%Z; done.
  - split; [|done]. split; eauto.
Qed.

(** Without [includeReplies] no request for nested replies is sent,
    whatever the page holds. *)
Theorem no_reply_request_without_includeReplies w args r :
  arg_includeReplies args = Some false ->
  r ∈ (getVideoComments w args).1 -> url r <> apiEndpoints_replyReply.
Proof.
  intros Hinc Hr.
  apply getVideoComments_requests in Hr
    as [_ [[_ ->]|[(oid & _ & ->)|(oid & resp & c & _ & _ & _ & H & _)]]].
  - done.
  - done.
  - by rewrite Hinc in H.
Qed.

(** When an [aid] is given the video is not looked up, also when a [bvid]
    is given too: no request goes to the video endpoint, and the comment
    request and the reply requests carry the [aid] given as their
    [oid]. *)
Theorem aid_given_skips_lookup w args aid r :
  arg_aid args = Some aid -> nonempty aid = true ->
  r ∈ (getVideoComments w args).1 ->
  url r <> apiEndpoints_view /\ ("oid", VStr aid) ∈ params r.
Proof.
  intros Haid Hne Hr.
  assert (needs_lookup args = false) as Hlook.
  { unfold needs_lookup. rewrite Haid. simpl. rewrite Hne. apply andb_false_r. }
  assert (forall oid, (oid_of w args).2 = Returns oid -> oid = VStr aid) as Hoid.
  { unfold oid_of. rewrite Hlook, Haid. simpl. by intros oid [= <-]. }
  apply getVideoComments_requests in Hr
    as [_ [[H _]|[(oid & ->%Hoid & ->)|(oid & resp & c & ->%Hoid & _ & _ & _ & _ & _ & ->)]]].
  - congruence.
  - split; [done|]. simpl. right. left.
  - split; [done|]. simpl. right. left.
Qed.

(** The page size sent to the comment endpoint is the one asked for
    (or [20]), and it lies between [1] and [49]: the clamp to [49] in
    [fetchComments] never changes it, since larger sizes are refused
    before. *)
Theorem comment_request_page_size w args r :
  r ∈ (getVideoComments w args).1 -> url r = apiEndpoints_reply ->
  ("ps", VNum (default 20%Z (arg_pageSize args))) ∈ params r /\
  (1 <= default 20 (arg_pageSize args) <= 49)%Z.
Proof.
  intros Hr Hurl.
  apply getVideoComments_requests in Hr
    as [Hv [[_ ->]|[(oid & _ & ->)|(oid & resp & c & _ & _ & _ & _ & _ & _ & ->)]]];
    try done.
  unfold valid_arguments in Hv.
  apply andb_true_iff in Hv as [[_ [H1 H2]%andb_true_iff]%andb_true_iff _].
  split; [|lia]. simpl. rewrite Z.min_l by lia. do 3 right. left.
Qed.

(** What is sent and what is returned do not depend on the order in which
    the answers to the concurrent reply requests arrive. *)
Theorem report_independent_of_arrival_order w pick args :
  getVideoComments (with_arrival w pick) args = getVideoComments w args.
Proof.
  assert (forall pageInfo includeReplies cookie videoId oid,
            generateMarkdownResponse (with_arrival w pick) pageInfo
              includeReplies cookie videoId oid
            = generateMarkdownResponse w pageInfo includeReplies cookie
                videoId oid) as Hgm.
  { intros pg inc ck vid oid.
    destruct (decide (allComments_of pg = [])) as [Hcs|Hcs].
    - by rewrite !generateMarkdownResponse_empty.
    - by rewrite !generateMarkdownResponse_eq, !render_own. }
  unfold getVideoComments. f_equal.
  destruct (valid_arguments w args) eqn:Hv.
  - rewrite (getVideoComments_try_valid w) by done.
    rewrite (getVideoComments_try_valid (with_arrival w pick)) by done.
    change (oid_of (with_arrival w pick) args) with (oid_of w args).
    change (cookie_of (with_arrival w pick) args) with (cookie_of w args).
    unfold bind at 1 4. destruct (oid_of w args).2 as [oid| |]; [|done..].
    cbn [fst snd]. f_equal.
    + f_equal.
      change (fetchComments (with_arrival w pick)) with (fetchComments w).
      unfold bind at 1 3.
      destruct (fetchComments w _ _ _ _ _ _).2 as [response| |]; [|done..].
      destruct (negb _); [done|]. by rewrite Hgm.
    + change (fetchComments (with_arrival w pick)) with (fetchComments w).
      unfold bind at 1 3.
      destruct (fetchComments w _ _ _ _ _ _).2 as [response| |]; [|done..].
      destruct (negb _); [done|]. by rewrite Hgm.
  - rewrite (getVideoComments_try_invalid w) by done.
    by rewrite (getVideoComments_try_invalid (with_arrival w pick)).
Qed.

(** The page size used for the page count is never [0] (a missing or
    zero size counts as [20]); with a positive size the page count is the
    least number of pages that hold all the comments, and with a negative
    size it is [1]. *)
Theorem totalPages_covers_count (pageInfo : pageInfo) :
  pageSize_of pageInfo <> 0%Z /\
  ((pageSize_of pageInfo < 0)%Z -> totalPages_of pageInfo = 1%Z) /\
  ((0 < pageSize_of pageInfo)%Z ->
   ((totalPages_of pageInfo - 1) * pageSize_of pageInfo
      < totalCount_of pageInfo
      <= totalPages_of pageInfo * pageSize_of pageInfo)%Z).
Proof.
  split; [|split].
  - unfold pageSize_of, num_or. destruct (size <$> page pageInfo) as [n|]; [|done].
    destruct (Z.eqb_spec n 0); done.
  - intros Hneg. unfold totalPages_of.
    destruct (Z.gtb_spec (pageSize_of pageInfo) 0); [lia|done].
  - intros Hpos. unfold totalPages_of.
    destruct (Z.gtb_spec (pageSize_of pageInfo) 0); [|lia].
    unfold ceil_div.
    pose proof (Z.mul_div_le (- totalCount_of pageInfo) (pageSize_of pageInfo) Hpos).
    pose proof (Z.mul_succ_div_gt (- totalCount_of pageInfo)
                  (pageSize_of pageInfo) Hpos).
    nia.
Qed.

Lemma nl_cons (post : string) :
  nl +:+ post = String (Ascii.ascii_of_nat 10) post.
Proof. reflexivity. Qed.

Lemma prefix_quote_mark (q : string) :
  String.prefix "> " (String ">"%char (String " "%char q)) = true.
Proof.
  cbn [String.prefix]. repeat (destruct (ascii_dec _ _); [|done]).
  by destruct q.
Qed.

(** In the quoted message every line break is followed by the quote
    mark, so every line of a comment stays inside the block quote; and
    quoting goes through concatenation. *)
Theorem quote_lines_quotes_every_line (s : string) :
  (forall pre post, quote_lines s = pre +:+ nl +:+ post ->
     String.prefix "> " post = true) /\
  (forall s', quote_lines (s +:+ s') = quote_lines s +:+ quote_lines s').
Proof.
  split.
  - induction s as [|c rest IH]; intros pre post; cbn [quote_lines];
      rewrite nl_cons.
    + destruct pre; [rewrite append_nil|rewrite append_cons]; done.
    + destruct (Ascii.eqb_spec c (Ascii.ascii_of_nat 10)) as [->|Hc].
      * rewrite nl_cons.
        change ("> " +:+ quote_lines rest)
          with (String ">"%char (String " "%char (quote_lines rest))).
        destruct pre as [|x pre]; [rewrite append_nil|rewrite append_cons].
        { intros [= <-]. apply prefix_quote_mark. }
        intros [= <- Hrest].
        destruct pre as [|y pre];
          [by rewrite append_nil in Hrest|rewrite append_cons in Hrest].
        injection Hrest as <- Hrest.
        destruct pre as [|z pre];
          [by rewrite append_nil in Hrest|rewrite append_cons in Hrest].
        injection Hrest as <- Hrest.
        apply (IH pre post). by rewrite nl_cons.
      * destruct pre as [|x pre]; [rewrite append_nil|rewrite append_cons].
        { intros [= ? _]. done. }
        intros [= <- Hrest]. apply (IH pre post). by rewrite nl_cons.
  - intros s'. induction s as [|c rest IH]; [done|].
    rewrite append_cons. cbn [quote_lines].
    destruct (Ascii.eqb c _).
    + by rewrite IH, !append_assoc.
    + by rewrite append_cons, IH.
Qed.

(** The text returned tells failure from success: it begins with the
    failure prefix exactly when the [try] block threw; a report begins
    with its heading. *)
Theorem failure_text_iff_try_throws w args :
  exists text,
    (getVideoComments w args).2 = Returns (ToolResult [ContentItem "text" text]) /\
    (String.prefix failure_prefix text = true <->
     exists e, (getVideoComments_try w args).2 = Throws e).
Proof.
  assert (ends_well (fun r => exists rest,
                       r = ToolResult [ContentItem "text" (String "#"%char rest)])
            (getVideoComments_try w args)) as Hend.
  { destruct (valid_arguments w args) eqn:Hv.
    - rewrite getVideoComments_try_valid by done.
      apply ends_well_bind; [apply oid_of_ends_well|]. intros oid.
      apply ends_well_bind; [apply fetchComments_ends_well|]. intros response.
      destruct (negb _); [apply ends_well_throw|].
      destruct (generateMarkdownResponse_starts w (reply_data response)
                  (default true (arg_includeReplies args)) (cookie_of w args)
                  (videoIdForRef_of args) oid) as [rest Hmd].
      left. unfold bind. rewrite Hmd. cbn [snd ret]. eauto.
    - rewrite getVideoComments_try_invalid by done. apply ends_well_throw. }
  unfold getVideoComments, try_catch.
  destruct Hend as [(r & Hr & rest & ->)|(code & m & Hm)].
  - rewrite Hr. eexists. split; [done|]. split; [done|]. by intros [e ?].
  - rewrite Hm. cbn. eexists. split; [done|]. split; [eauto|].
    intros _. apply prefix_append. eauto.
Qed.

(** A credential given as argument shadows the environment variable: when
    [args.cookie] is a non-empty value it is the one checked and sent, so
    a call with an unusable [args.cookie] is refused even when the
    environment holds a usable one; the variable is used only when the
    argument is absent or empty. *)
Theorem argument_cookie_shadows_environment w args :
  (truthy (arg_cookie args) = true ->
   cookie_of w args = arg_cookie args /\
   (validateCookie (arg_cookie args) = false ->
    getVideoComments w args = ([], Returns (failure_result cookie_message)))) /\
  (truthy (arg_cookie args) = false ->
   cookie_of w args = BILIBILI_COOKIE w).
Proof.
  unfold cookie_of, js_or. split; intros Ht; rewrite Ht; [|done].
  split; [done|]. intros Hc.
  unfold getVideoComments, try_catch.
  rewrite getVideoComments_try_invalid.
  - unfold validation_message, cookie_of, js_or. by rewrite Ht, Hc.
  - unfold valid_arguments, cookie_of, js_or. by rewrite Ht, Hc.
Qed.

(** Pairing keeps the comments as they are, in order, whatever the list
    of reply results; a comment without a result at its index is paired
    with an empty array. *)
Theorem commentWithReplies_keeps_comments cs allReplies :
  (commentWithReplies cs allReplies).*1 = cs /\
  (forall i c, cs !! i = Some c -> allReplies !! i = None ->
     commentWithReplies cs allReplies !! i = Some (c, VArray [])).
Proof.
  split.
  - apply list_eq. intros i.
    rewrite list_lookup_fmap, commentWithReplies_lookup.
    by destruct (cs !! i).
  - intros i c Hc Hr. by rewrite commentWithReplies_lookup, Hc, Hr.
Qed.

(** The handler of tool calls throws for every name but
    [get_video_comments], and for that name it never throws. *)
Theorem callTool_throws_only_for_unknown_tools w name args :
  (name = "get_video_comments" ->
   exists text,
     (callTool w name args).2 = Returns (ToolResult [ContentItem "text" text])) /\
  (name <> "get_video_comments" ->
   callTool w name args = ([], Throws (JsError None ("未知的工具: " +:+ name)))).
Proof.
  unfold callTool. split; intros Hn.
  - rewrite bool_decide_eq_true_2 by done.
    unfold getVideoComments, try_catch.
    destruct (getVideoComments_try_ends_well w args)
      as [(r & Hr & md & ->)|(code & m & Hm)].
    + rewrite Hr. eauto.
    + rewrite Hm. cbn. eauto.
  - by rewrite bool_decide_eq_false_2.
Qed.



Lemma generateMarkdownResponse_requests w pageInfo includeReplies cookie videoId oid :
  (generateMarkdownResponse w pageInfo includeReplies cookie videoId oid).1 =
  if includeReplies
  then (fun c => fetchReplies_request oid (rpid c) cookie videoId)
         <$> filter (fun c => (0 < rcount c)%Z) (allComments_of pageInfo)
  else [].
Proof.
  destruct (decide (allComments_of pageInfo = [])) as [Hcs|Hcs].
  - rewrite generateMarkdownResponse_empty by done. rewrite Hcs.
    by destruct includeReplies.
  - rewrite generateMarkdownResponse_eq by done. cbn [fst].
    destruct includeReplies; [|done].
    unfold reply_closures. by rewrite <- list_fmap_compose.
Qed.

(** With [includeReplies] the reply requests of a page are one per
    comment with nested replies, sent in the order of the comments, all of
    them however many there are and whatever the order in which the
    answers arrive: the pool delays requests, it drops none and does not
    reorder them. *)
Theorem reply_requests_in_comment_order w pick pageInfo cookie videoId oid :
  (generateMarkdownResponse (with_arrival w pick) pageInfo true cookie
     videoId oid).1
  = (fun c => fetchReplies_request oid (rpid c) cookie videoId)
      <$> filter (fun c => (0 < rcount c)%Z)
            (default [] (hots pageInfo) ++ default [] (replies pageInfo)).
Proof. apply generateMarkdownResponse_requests. Qed.


End ToolMore.

(** ** The tool on sample calls *)

Section ToolMoreSamples.

Import Server Samples.

Lemma no_reply_request_without_includeReplies_sample :
  url (fetchComments_request (VStr "170001") 2 30 1 (VStr "SESSDATA=abc")
         "BV1xx411c7mD")
  <> apiEndpoints_replyReply.
Proof.
  apply (no_reply_request_without_includeReplies
           (world_of good_view good_page good_replies) (av_args false)).
  - reflexivity.
  - vm_compute. left.
Defined.

Lemma aid_given_skips_lookup_sample :
  url (fetchReplies_request (VStr "170001") 101 (VStr "SESSDATA=abc")
         "BV1xx411c7mD") <> apiEndpoints_view /\
  ("oid", VStr "170001")
    ∈ params (fetchReplies_request (VStr "170001") 101 (VStr "SESSDATA=abc")
                "BV1xx411c7mD").
Proof.
  apply (aid_given_skips_lookup
           (world_of good_view good_page good_replies) (av_args true) "170001").
  - reflexivity.
  - reflexivity.
  - vm_compute. right. left.
Defined.

Lemma comment_request_page_size_sample :
  ("ps", VNum 30)
    ∈ params (fetchComments_request (VStr "170001") 2 30 1
                (VStr "SESSDATA=abc") "BV1xx411c7mD") /\
  (1 <= 30 <= 49)%Z.
Proof.
  apply (comment_request_page_size
           (world_of good_view good_page good_replies) (av_args true)).
  - vm_compute. left.
  - reflexivity.
Defined.

Lemma getVideoInfo_wraps_its_own_error_sample :
  (getVideoInfo
     (world_of (Response (ViewResponse (-404) "啥都木有" 0 EmptyString))
               good_page good_replies)
     "BV1xx411c7mD" (VStr "SESSDATA=abc")).2
  = Throws (JsError None
      "获取视频信息失败: 获取视频信息失败 (-404): 啥都木有").
Proof.
  apply (proj1 (getVideoInfo_wraps_its_own_error
                  (world_of (Response (ViewResponse (-404) "啥都木有" 0 EmptyString))
                            good_page good_replies)
                  "BV1xx411c7mD" (VStr "SESSDATA=abc"))
               (ViewResponse (-404) "啥都木有" 0 EmptyString)).
  - reflexivity.
  - simpl. lia.
Defined.

Lemma fetchComments_failure_messages_sample :
  (fetchComments
     (world_of good_view
        (Failure (Some "ECONNABORTED") "timeout of 10000ms exceeded")
        good_replies)
     (VNum 777) 1 20 0 (VStr "SESSDATA=abc") "BV1xx411c7mD").2
  = Throws (JsError None "请求超时，请稍后重试").
Proof.
  apply (proj1 (fetchComments_failure_messages
                  (world_of good_view
                     (Failure (Some "ECONNABORTED") "timeout of 10000ms exceeded")
                     good_replies)
                  (VNum 777) 1 20 0 (VStr "SESSDATA=abc") "BV1xx411c7mD")
               "timeout of 10000ms exceeded").
  reflexivity.
Defined.

Lemma fetchReplies_failure_is_a_value_sample :
  fetchReplies sample_world (VNum 777) 103 (VStr "SESSDATA=abc") "BV1xx411c7mD"
  = VStr "fetch_failed".
Proof.
  apply (proj1 (fetchReplies_failure_is_a_value sample_world (VNum 777) 103
                  (VStr "SESSDATA=abc") "BV1xx411c7mD")).
  exists (Some "ECONNABORTED"), "timeout of 8000ms exceeded".
  vm_compute. reflexivity.
Defined.

Lemma totalPages_covers_count_sample :
  ((totalPages_of sample_page - 1) * pageSize_of sample_page
     < totalCount_of sample_page
     <= totalPages_of sample_page * pageSize_of sample_page)%Z.
Proof.
  apply (proj2 (proj2 (totalPages_covers_count sample_page))).
  vm_compute. reflexivity.
Defined.

Lemma quote_lines_quotes_every_line_sample :
  String.prefix "> " "> b" = true.
Proof.
  apply (proj1 (quote_lines_quotes_every_line ("a" +:+ nl +:+ "b")) "a" "> b").
  vm_compute. reflexivity.
Defined.

Lemma argument_cookie_shadows_environment_sample :
  getVideoComments sample_world (sample_args (VStr "session"))
  = ([], Returns (failure_result cookie_message)).
Proof.
  apply (proj1 (argument_cookie_shadows_environment sample_world
                  (sample_args (VStr "session")))).
  - reflexivity.
  - reflexivity.
Defined.

Lemma commentWithReplies_keeps_comments_sample :
  commentWithReplies [alice; bob] [VArray []] !! 1 = Some (bob, VArray []).
Proof.
  apply (proj2 (commentWithReplies_keeps_comments [alice; bob] [VArray []])).
  - reflexivity.
  - reflexivity.
Defined.

Lemma callTool_throws_only_for_unknown_tools_sample :
  callTool sample_world "list_comments" (sample_args VUndefined)
  = ([], Throws (JsError None "未知的工具: list_comments")).
Proof.
  apply (proj2 (callTool_throws_only_for_unknown_tools sample_world
                  "list_comments" (sample_args VUndefined))).
  discriminate.
Defined.


Lemma getVideoComments_never_throws_sample :
  block_of sample_world carol
    (own_replies sample_world true (VNum 777) (VStr "SESSDATA=abc")
       "BV1xx411c7mD" carol)
  = _formatSingleCommentContent sample_world carol
    +:+ "  ↳ ⚠️ *此评论的楼中楼回复加载失败，请稍后重试。*" +:+ nl
    +:+ (nl +:+ "---" +:+ nl +:+ nl).
Proof.
  assert (valid_arguments sample_world (sample_args VUndefined) = true) as Hv
    by (vm_compute; reflexivity).
  assert ((oid_of sample_world (sample_args VUndefined)).2
          = Returns (VNum 777)) as Hoid by (vm_compute; reflexivity).
  assert ((fetchComments sample_world (VNum 777) 1 20 0 (VStr "SESSDATA=abc")
             "BV1xx411c7mD").2
          = Returns (ReplyResponse 0 "0" sample_page)) as Hresp
    by (vm_compute; reflexivity).
  assert (replyReply_endpoint sample_world
            (fetchReplies_request (VNum 777) 103 (VStr "SESSDATA=abc")
               "BV1xx411c7mD")
          = Failure (Some "ECONNABORTED") "timeout of 8000ms exceeded") as Hfail
    by (vm_compute; reflexivity).
  destruct (getVideoComments_never_throws sample_world (sample_args VUndefined))
    as (text & _ & _ & _ & _ & _ & _ & _ & Hreport).
  destruct (Hreport Hv (VNum 777) (ReplyResponse 0 "0" sample_page) Hoid Hresp
              eq_refl) as (_ & _ & Hblock).
  exact (proj1 (Hblock carol eq_refl eq_refl) (Some "ECONNABORTED")
           "timeout of 8000ms exceeded" Hfail).
Defined.

End ToolMoreSamples.
